(** * mailit: recipient model, batching and mail composer

    A shallow embedding of [mailit/__init__.py].

    Conventions of the embedding.
    - Python [str] is modelled by [string]; [str.upper], [str.lower] and
      [str.title] are modelled on the ASCII letters (other characters are
      left as they are).
    - A Python [dict] is an insertion-ordered list of key/value pairs with
      unique keys ([Dict.set] overwrites in place, or appends).
    - Exceptions are values of type [exn]; fallible code returns [exn + A].
    - [Mail] methods run in a small state-and-error monad whose state holds
      the [Mail] object and the list of transport calls made so far.
    - [logging] calls are informational and are not modelled; [add_image]
      takes file access, MIME guessing and base64 as parameters, and file
      names follow the POSIX [os.path]. *)

From Stdlib Require Import ZArith Ascii String List Lia Bool.
From stdpp Require Import base tactics option list strings.

Open Scope string_scope.
Open Scope list_scope.

(** ** Characters and strings *)

Definition is_lower (c : ascii) : bool :=
  let n := nat_of_ascii c in (97 <=? n)%nat && (n <=? 122)%nat.

Definition is_upper (c : ascii) : bool :=
  let n := nat_of_ascii c in (65 <=? n)%nat && (n <=? 90)%nat.

Definition is_cased (c : ascii) : bool := is_lower c || is_upper c.

Definition upper_char (c : ascii) : ascii :=
  if is_lower c then ascii_of_nat (nat_of_ascii c - 32) else c.

Definition lower_char (c : ascii) : ascii :=
  if is_upper c then ascii_of_nat (nat_of_ascii c + 32) else c.

(** [str.upper()] *)
Fixpoint upper (s : string) : string :=
  match s with
  | EmptyString => EmptyString
  | String c s' => String (upper_char c) (upper s')
  end.

(** [str.title()]: a letter that follows a cased character is lowercased,
    any other letter is uppercased.  This is [str.title] on ASCII strings;
    what it gives for other characters (whose case mappings may change the
    length of the string) is not what Python gives. *)
Fixpoint title_from (previous_is_cased : bool) (s : string) : string :=
  match s with
  | EmptyString => EmptyString
  | String c s' =>
      String (if previous_is_cased then lower_char c else upper_char c)
             (title_from (is_cased c) s')
  end.

Definition title (s : string) : string := title_from false s.

(** Truth value of a string: the empty string is false. *)
Definition str_truthy (s : string) : bool :=
  match s with EmptyString => false | String _ _ => true end.

(** ** Exceptions *)

Inductive exn : Type :=
  | ValueError
  | KeyError
  | TypeError
  | AttributeError
  | StopIteration
  | CouldNotGuessEmailField   (* Exception('Could not guess email field.') *)
  | TransportError (code : nat)
  | Diverged.                 (* the model ran out of fuel *)

(** ** Dictionaries *)

Module Dict.
Section Dict.
Context {V : Type}.

Definition t := list (string * V).

Definition empty : t := [].

(** [d.get(k)] *)
Fixpoint get (k : string) (d : t) : option V :=
  match d with
  | [] => None
  | (k', v) :: d' => if String.eqb k k' then Some v else get k d'
  end.

(** [d[k] = v] *)
Fixpoint set (k : string) (v : V) (d : t) : t :=
  match d with
  | [] => [(k, v)]
  | (k', v') :: d' =>
      if String.eqb k k' then (k', v) :: d' else (k', v') :: set k v d'
  end.

(** [del d[k]]; [None] stands for [KeyError]. *)
Fixpoint del (k : string) (d : t) : option t :=
  match d with
  | [] => None
  | (k', v') :: d' =>
      if String.eqb k k' then Some d'
      else option_map (cons (k', v')) (del k d')
  end.

(** [d.update(other)] *)
Definition update (d other : t) : t :=
  fold_left (fun acc kv => set (fst kv) (snd kv) acc) other d.

Definition keys (d : t) : list string := map fst d.
Definition values (d : t) : list V := map snd d.

(** The mapping without key [k] (keyword arguments bound to a named
    parameter do not reach [**kwargs]). *)
Definition without (k : string) (d : t) : t :=
  List.filter (fun kv => negb (String.eqb k (fst kv))) d.
End Dict.
Arguments t : clear implicits.
End Dict.

(** ** Recipient *)

Record merge_var : Type := MergeVar {
  mv_name : string;
  mv_content : string
}.

Record Recipient : Type := mkRecipient {
  email : string;
  first_name : option string;
  last_name : option string;
  name : string;
  merge_vars : list merge_var
}.

Definition opt_truthy (o : option string) : bool :=
  match o with Some s => str_truthy s | None => false end.

(** The inner function [name()] of [Recipient.__init__]. *)
Definition Recipient_name (kwargs : Dict.t string) : string :=
  if opt_truthy (Dict.get "first_name" kwargs)
     && opt_truthy (Dict.get "last_name" kwargs)
  then default "" (Dict.get "first_name" kwargs) +:+ " "
       +:+ default "" (Dict.get "last_name" kwargs)
  else if opt_truthy (Dict.get "first_name" kwargs)
  then default "" (Dict.get "first_name" kwargs)
  else "".

(** [Recipient.__init__(self, email, **kwargs)] *)
Definition Recipient_init (email : string) (kwargs : Dict.t string) : Recipient :=
  {| email := email;
     first_name := Dict.get "first_name" kwargs;
     last_name := Dict.get "last_name" kwargs;
     name := title (default (Recipient_name kwargs) (Dict.get "name" kwargs));
     merge_vars := map (fun kv => MergeVar (upper (fst kv)) (snd kv)) kwargs |}.

(** The name-derivation law in the words of the specification, for a given
    reading [present] of when a name part counts as present: the explicit
    name if supplied; else "first last" if both parts are present; else the
    first name alone if it is present; else the empty string; title-cased. *)
Definition name_law (present : option string -> option string)
    (kwargs : Dict.t string) : string :=
  title
    match Dict.get "name" kwargs with
    | Some n => n
    | None =>
        match present (Dict.get "first_name" kwargs),
              present (Dict.get "last_name" kwargs) with
        | Some f, Some l => f +:+ " " +:+ l
        | Some f, None => f
        | None, _ => ""
        end
    end.

(** A part is present when it was supplied and is not the empty string. *)
Definition supplied_nonempty (o : option string) : option string :=
  match o with
  | Some s => if str_truthy s then Some s else None
  | None => None
  end.

(** ** Mail: the composer's state *)

Record image : Type := Image {
  img_content : string;          (* base64 text *)
  img_type : option string;      (* MIME type, [None] when not guessed *)
  img_name : string
}.

Record Mail : Type := mkMail {
  _template : option string;
  _images : Dict.t image;
  _merge_vars : list merge_var;
  _subject : string;
  _from_email : string;
  _from_name : string
}.

Record to_entry : Type := ToEntry {
  to_name : string;
  to_email : string;
  to_type : string
}.

Record rcpt_vars : Type := RcptVars {
  rcpt : string;
  vars : list merge_var
}.

(** The payload handed to [self._client.messages.send]. *)
Record message : Type := Message {
  msg_from_email : string;
  msg_from_name : string;
  msg_to : list to_entry;
  msg_preserve_recipients : bool;
  msg_subject : string;
  msg_headers : list (string * string);
  msg_auto_html : option bool;
  msg_auto_text : option bool;
  msg_important : bool;
  msg_inline_css : option bool;
  msg_merge : bool;
  msg_merge_language : string;
  msg_global_merge_vars : list merge_var;
  msg_merge_vars : list rcpt_vars;
  msg_html : option string;
  msg_images : list image;
  msg_recipient_metadata : list string;
  msg_tags : list string;
  msg_url_strip_qs : option bool
}.

(** ** The state-and-error monad of the [Mail] methods *)

Record state : Type := State {
  self : Mail;
  calls : list message          (* payloads passed to the transport so far *)
}.

Definition M (A : Type) : Type := state -> (exn + A) * state.

Definition ret {A} (a : A) : M A := fun s => (inr a, s).
Definition raise {A} (e : exn) : M A := fun s => (inl e, s).
Definition bind {A B} (m : M A) (k : A -> M B) : M B :=
  fun s =>
    match m s with
    | (inl e, s') => (inl e, s')
    | (inr a, s') => k a s'
    end.
Definition get_self : M Mail := fun s => (inr (self s), s).
Definition put_self (m : Mail) : M unit :=
  fun s => (inr tt, {| self := m; calls := calls s |}).

Declare Scope mail_scope.
Delimit Scope mail_scope with mail.
Notation "x <- m ;; k" := (bind m (fun x => k))
  (at level 100, m at next level, right associativity) : mail_scope.
Notation "m ;;; k" := (bind m (fun _ => k))
  (at level 100, right associativity) : mail_scope.
Open Scope mail_scope.

(** ** Global merge variables and images *)

Definition merge_var_eqb (a b : merge_var) : bool :=
  String.eqb (mv_name a) (mv_name b) && String.eqb (mv_content a) (mv_content b).

(** What [first_true] may return: an entry of the list, or its default,
    which [remove_global_merge_var] leaves at [False]. *)
Inductive pyval : Type :=
  | PyDict (d : merge_var)
  | PyFalse.

Definition pyval_eqb (a b : pyval) : bool :=
  match a, b with
  | PyDict x, PyDict y => merge_var_eqb x y
  | PyFalse, PyFalse => true
  | _, _ => false
  end.

(** [next(filter(pred, iterable), default)] *)
Fixpoint first_true (iterable : list merge_var) (default : pyval)
    (pred : merge_var -> bool) : pyval :=
  match iterable with
  | [] => default
  | x :: rest => if pred x then PyDict x else first_true rest default pred
  end.

(** [list.remove(x)]: drops the first element equal to [x];
    [None] stands for [ValueError]. *)
Fixpoint list_remove (x : pyval) (l : list merge_var) : option (list merge_var) :=
  match l with
  | [] => None
  | y :: l' =>
      if pyval_eqb (PyDict y) x then Some l'
      else option_map (cons y) (list_remove x l')
  end.

Definition set_merge_vars (l : list merge_var) (m : Mail) : Mail :=
  {| _template := _template m; _images := _images m; _merge_vars := l;
     _subject := _subject m; _from_email := _from_email m;
     _from_name := _from_name m |}.

Definition set_images (d : Dict.t image) (m : Mail) : Mail :=
  {| _template := _template m; _images := d; _merge_vars := _merge_vars m;
     _subject := _subject m; _from_email := _from_email m;
     _from_name := _from_name m |}.

(** [Mail.clear] *)
Definition clear : M unit :=
  put_self {| _template := None; _images := Dict.empty; _merge_vars := [];
              _subject := ""; _from_email := ""; _from_name := "" |}.

(** [Mail.__init__]: [template] is the text of the template, [None] when
    the keyword is not given (the setter then fails on [None.read()]). *)
Definition Mail_init (subject from_name from_email : string)
    (template : option string) : M unit :=
  clear ;;;
  match template with
  | None => raise AttributeError
  | Some t =>
      put_self {| _template := Some t; _images := Dict.empty; _merge_vars := [];
                  _subject := subject; _from_email := from_email;
                  _from_name := from_name |}
  end.

(** The property [Mail.global_merge_vars]. *)
Definition global_merge_vars (m : Mail) : list merge_var := _merge_vars m.

(** The property [Mail.images]. *)
Definition images (m : Mail) : Dict.t image := _images m.

(** [Mail.add_global_merge_var] *)
Definition add_global_merge_var (name content : string) : M unit :=
  m <- get_self ;;
  put_self (set_merge_vars (_merge_vars m ++ [MergeVar (upper name) content]) m).

(** [Mail.remove_global_merge_var] *)
Definition remove_global_merge_var (name : string) : M unit :=
  m <- get_self ;;
  let name := upper name in
  match list_remove
          (first_true (_merge_vars m) PyFalse
             (fun x => String.eqb (mv_name x) name))
          (_merge_vars m) with
  | None => raise ValueError
  | Some l => put_self (set_merge_vars l m)
  end.

(** [Mail.remove_image] *)
Definition remove_image (filename : string) : M unit :=
  m <- get_self ;;
  match Dict.del filename (_images m) with
  | None => raise KeyError
  | Some d => put_self (set_images d m)
  end.

(** ** [itertools.zip_longest] over copies of one iterator *)

(** An argument of [zip_longest] inside [grouper]: the one shared iterator
    over the recipients, or, once that position saw it exhausted,
    [repeat(fillvalue)]. *)
Inductive arg : Type :=
  | Shared
  | Repeat.

Section Grouper.
Context {A : Type}.

(** State of one [zip_longest] generator: its argument list, the number
    of arguments not yet seen exhausted, and the items left in the shared
    iterator. *)
Record zl_state : Type := ZL {
  iterators : list arg;
  num_active : Z;
  pending : list A
}.

(** One pass of the inner [for] loop, from position [its] on.  [None]:
    the generator returns (no argument is active any more); otherwise the
    values collected and the state after the pass.  A slot holds [None]
    for the fill value. *)
Fixpoint zl_pass (its : list arg) (num_active : Z) (pending : list A)
    : option (list (option A) * zl_state) :=
  match its with
  | [] => Some ([], ZL [] num_active pending)
  | Repeat :: its' =>
      match zl_pass its' num_active pending with
      | None => None
      | Some (values, ZL its'' n p) => Some (None :: values, ZL (Repeat :: its'') n p)
      end
  | Shared :: its' =>
      match pending with
      | x :: pending' =>
          match zl_pass its' num_active pending' with
          | None => None
          | Some (values, ZL its'' n p) =>
              Some (Some x :: values, ZL (Shared :: its'') n p)
          end
      | [] =>
          let num_active := (num_active - 1)%Z in
          if (num_active =? 0)%Z then None
          else
            match zl_pass its' num_active [] with
            | None => None
            | Some (values, ZL its'' n p) =>
                Some (None :: values, ZL (Repeat :: its'') n p)
            end
      end
  end.

(** The [while True] loop; [None] when [fuel] passes do not reach the
    [return]. *)
Fixpoint zl_loop (fuel : nat) (st : zl_state) : option (list (list (option A))) :=
  match fuel with
  | O => None
  | S fuel' =>
      match zl_pass (iterators st) (num_active st) (pending st) with
      | None => Some []
      | Some (values, st') =>
          match zl_loop fuel' st' with
          | None => None
          | Some rest => Some (values :: rest)
          end
      end
  end.

(** [zip_longest] applied to [args] where every element of [args]
    is the iterator over [items]. *)
Definition zip_longest (fuel : nat) (args : list arg) (items : list A)
    : option (list (list (option A))) :=
  let num_active := Z.of_nat (length args) in
  if (num_active =? 0)%Z then Some []
  else zl_loop fuel (ZL args num_active items).

(** [grouper(iterable, n)] of [Mail.send]: [[iter(iterable)] * n] is the
    empty list when [n <= 0].  Each pass but the last consumes an item, so
    one more pass than there are items is enough fuel. *)
Definition grouper (iterable : list A) (n : Z) : option (list (list (option A))) :=
  zip_longest (S (length iterable)) (replicate (Z.to_nat n) Shared) iterable.

(** [x for x in batch if x is not None] *)
Definition reals (batch : list (option A)) : list A := omap id batch.

(** Batching as the specification words it: successive groups of [n]
    items, the last one padded with the sentinel. *)
Fixpoint chunks (fuel n : nat) (l : list A) : list (list (option A)) :=
  match fuel, l with
  | S fuel', _ :: _ =>
      (map Some (take n l) ++ replicate (n - length l) None)
        :: chunks fuel' n (drop n l)
  | _, _ => []
  end.
End Grouper.
Arguments zl_state : clear implicits.

(** The number of real items the specification gives the last batch:
    [len mod n], or [n] when [n] divides [len]. *)
Definition last_count (len n : nat) : nat :=
  if (len mod n =? 0)%nat then n else len mod n.

(** ** [Mail.send] *)

Section Send.
Variable Response : Type.

(** The external [messages.send]: a response or a failure code; the
    answer may depend on the calls made before.  It receives the payload
    by value. *)
Variable transport : list message -> message -> nat + Response.

Definition client_send (msg : message) : M Response :=
  fun s =>
    (match transport (calls s) msg with
     | inl code => inl (TransportError code)
     | inr r => inr r
     end,
     {| self := self s; calls := calls s ++ [msg] |}).

(** [to, merge_vars = zip] of the unpacked [pairs]: with no pair at all
    there is nothing to unpack. *)
Definition zip_star {X Y} (pairs : list (X * Y)) : M (list X * list Y) :=
  match pairs with
  | [] => raise ValueError
  | _ => ret (map fst pairs, map snd pairs)
  end.

Definition compose (m : Mail) (to : list to_entry) (mvs : list rcpt_vars) : message :=
  {| msg_from_email := _from_email m;
     msg_from_name := _from_name m;
     msg_to := to;
     msg_preserve_recipients := false;
     msg_subject := _subject m;
     msg_headers := [];
     msg_auto_html := None;
     msg_auto_text := None;
     msg_important := false;
     msg_inline_css := None;
     msg_merge := true;
     msg_merge_language := "mailchimp";
     msg_global_merge_vars := global_merge_vars m;
     msg_merge_vars := mvs;
     msg_html := _template m;
     msg_images := Dict.values (_images m);
     msg_recipient_metadata := [];
     msg_tags := [];
     msg_url_strip_qs := None |}.

Definition to_entry_of (recipient : Recipient) : to_entry :=
  {| to_name := name recipient; to_email := email recipient; to_type := "to" |}.

Definition rcpt_vars_of (recipient : Recipient) : rcpt_vars :=
  {| rcpt := email recipient; vars := merge_vars recipient |}.

(** The body of [for batch in grouper(...)], threaded with [result]. *)
Fixpoint send_loop (dry_run : bool) (batches : list (list (option Recipient)))
    (result : list Response) : M (list Response) :=
  match batches with
  | [] => ret result
  | batch :: rest =>
      p <- zip_star
             (map (fun recipient =>
                     (to_entry_of recipient, rcpt_vars_of recipient))
                  (reals batch)) ;;
      m <- get_self ;;
      let message := compose m (fst p) (snd p) in
      result' <- (if negb dry_run
                  then r <- client_send message ;; ret (result ++ [r])
                  else ret result) ;;
      send_loop dry_run rest result'
  end.

Definition send (recipients : list Recipient) (batch_size : Z) (dry_run : bool)
    : M (list Response) :=
  match grouper recipients batch_size with
  | None => raise Diverged
  | Some batches => send_loop dry_run batches []
  end.
End Send.

(** The payload skeleton: what a payload takes over from the composer. *)
Definition carries_skeleton (m : Mail) (msg : message) : Prop :=
  msg_from_email msg = _from_email m
  /\ msg_from_name msg = _from_name m
  /\ msg_subject msg = _subject m
  /\ msg_html msg = _template m
  /\ msg_images msg = Dict.values (_images m)
  /\ msg_global_merge_vars msg = _merge_vars m.

(** The payload [send] builds for one batch. *)
Definition batch_message (m : Mail) (batch : list (option Recipient)) : message :=
  compose m (map to_entry_of (reals batch)) (map rcpt_vars_of (reals batch)).

(** The least number of groups of [b] that cover [a] items. *)
Definition ceil_div (a b : nat) : nat := (a + b - 1) / b.

(** ** Regular expressions and [re.match] *)

Inductive regex : Type :=
  | Void                          (* matches nothing *)
  | Eps                           (* the empty string *)
  | Class (p : ascii -> bool)     (* one character of a class *)
  | Cat (r1 r2 : regex)
  | Alt (r1 r2 : regex)
  | Star (r : regex).

Definition Plus (r : regex) : regex := Cat r (Star r).
Definition Lit (c : ascii) : regex := Class (Ascii.eqb c).

(** The strings a regular expression denotes. *)
Inductive matches : regex -> string -> Prop :=
  | m_eps : matches Eps ""
  | m_class p c : p c = true -> matches (Class p) (String c "")
  | m_cat r1 r2 s1 s2 :
      matches r1 s1 -> matches r2 s2 -> matches (Cat r1 r2) (s1 +:+ s2)
  | m_alt_l r1 r2 s : matches r1 s -> matches (Alt r1 r2) s
  | m_alt_r r1 r2 s : matches r2 s -> matches (Alt r1 r2) s
  | m_star_nil r : matches (Star r) ""
  | m_star_cons r s1 s2 :
      matches r s1 -> matches (Star r) s2 -> matches (Star r) (s1 +:+ s2).

Fixpoint nullable (r : regex) : bool :=
  match r with
  | Void => false
  | Eps => true
  | Class _ => false
  | Cat r1 r2 => nullable r1 && nullable r2
  | Alt r1 r2 => nullable r1 || nullable r2
  | Star _ => true
  end.

(** Brzozowski derivative: what may follow the character [c]. *)
Fixpoint deriv (c : ascii) (r : regex) : regex :=
  match r with
  | Void => Void
  | Eps => Void
  | Class p => if p c then Eps else Void
  | Cat r1 r2 =>
      if nullable r1 then Alt (Cat (deriv c r1) r2) (deriv c r2)
      else Cat (deriv c r1) r2
  | Alt r1 r2 => Alt (deriv c r1) (deriv c r2)
  | Star r1 => Cat (deriv c r1) (Star r1)
  end.

(** The whole of [s] is in the language of [r]. *)
Fixpoint fullmatch (r : regex) (s : string) : bool :=
  match s with
  | EmptyString => nullable r
  | String c s' => fullmatch (deriv c r) s'
  end.

(** [re.match(r, s)] is not [None]: the pattern matches at the start of
    [s], anywhere up to its end. *)
Fixpoint re_match (r : regex) (s : string) : bool :=
  nullable r ||
  match s with
  | EmptyString => false
  | String c s' => re_match (deriv c r) s'
  end.

(** [re.search(r, s)] is not [None]: the pattern matches at some position
    of [s].  The source does not call it. *)
Fixpoint re_search (r : regex) (s : string) : bool :=
  re_match r s ||
  match s with
  | EmptyString => false
  | String _ s' => re_search r s'
  end.

(** The pattern of [csvfile_to_recipients]: one or more non-at characters,
    an at sign, one or more non-at characters, a dot, one or more non-at
    characters. *)
Definition not_at : regex := Class (fun c => negb (Ascii.eqb c "@")).

Definition email_pattern : regex :=
  Cat (Plus not_at)
      (Cat (Lit "@") (Cat (Plus not_at) (Cat (Lit ".") (Plus not_at)))).

(** ** [csvfile_to_recipients] *)

Definition is_digit (c : ascii) : bool :=
  let n := nat_of_ascii c in (48 <=? n)%nat && (n <=? 57)%nat.

Definition is_identifier_start (c : ascii) : bool :=
  is_cased c || Ascii.eqb c "_".

Fixpoint all_chars (p : ascii -> bool) (s : string) : bool :=
  match s with
  | EmptyString => true
  | String c s' => p c && all_chars p s'
  end.

(** [str.isidentifier()], on ASCII: a letter or an underscore, then
    letters, digits and underscores. *)
Definition is_identifier (s : string) : bool :=
  match s with
  | EmptyString => false
  | String c s' =>
      is_identifier_start c
      && all_chars (fun c => is_identifier_start c || is_digit c) s'
  end.

(** [keyword.kwlist] *)
Definition kwlist : list string :=
  ["False"; "None"; "True"; "and"; "as"; "assert"; "async"; "await"; "break";
   "class"; "continue"; "def"; "del"; "elif"; "else"; "except"; "finally";
   "for"; "from"; "global"; "if"; "import"; "in"; "is"; "lambda"; "nonlocal";
   "not"; "or"; "pass"; "raise"; "return"; "try"; "while"; "with"; "yield"].

Definition iskeyword (s : string) : bool := existsb (String.eqb s) kwlist.

Definition starts_with_underscore (s : string) : bool :=
  match s with
  | String c _ => Ascii.eqb c "_"
  | EmptyString => false
  end.

Fixpoint has_duplicate (names : list string) : bool :=
  match names with
  | [] => false
  | x :: rest => existsb (String.eqb x) rest || has_duplicate rest
  end.

(** What remains of [namedtuple('Row', header)] for the rows: the field
    names.  A name that is no identifier or is a keyword, a name with a
    leading underscore and a repeated name are each a [ValueError]. *)
Definition namedtuple (field_names : list string) : exn + list string :=
  if forallb (fun name => is_identifier name && negb (iskeyword name)) field_names
     && forallb (fun name => negb (starts_with_underscore name)) field_names
     && negb (has_duplicate field_names)
  then inr field_names
  else inl ValueError.

(** [Row( *values)] and [Row._make(values)]: one value per field. *)
Definition Row_make (fields : list string) (values : list string)
    : exn + list string :=
  if (length values =? length fields)%nat then inr values else inl TypeError.

(** [getattr(data, field)] for a field name; for any other name it is
    modelled as [AttributeError] (the attributes a named tuple has of its
    own, such as [_fields], are outside the model). *)
Fixpoint Row_getattr (fields : list string) (data : list string) (field : string)
    : exn + string :=
  match fields, data with
  | f :: fields', v :: data' =>
      if String.eqb field f then inr v else Row_getattr fields' data' field
  | _, _ => inl AttributeError
  end.

(** [data._asdict()] *)
Definition Row_asdict (fields : list string) (data : list string) : Dict.t string :=
  Dict.update Dict.empty (combine fields data).

(** The loop "select first field that looks like email address", over the
    fields still to visit.  (Every declared field of a row has a value, see
    [Row_getattr_declared]; the error branch is there for totality.) *)
Fixpoint guess_email_field (fields data to_visit : list string) : option string :=
  match to_visit with
  | [] => None
  | field :: rest =>
      match Row_getattr fields data field with
      | inr v =>
          if re_match email_pattern v then Some field
          else guess_email_field fields data rest
      | inl _ => None
      end
  end.

(** [Recipient( **kwargs)]: the [email] key binds the parameter [email],
    a [self] key collides with the receiver, every other key goes to the
    keyword dictionary. *)
Definition Recipient_call (kwargs : Dict.t string) : exn + Recipient :=
  if existsb (String.eqb "self") (Dict.keys kwargs) then inl TypeError
  else
    match Dict.get "email" kwargs with
    | None => inl TypeError
    | Some e => inr (Recipient_init e (Dict.without "email" kwargs))
    end.

(** The three statements that turn a row into a Recipient. *)
Definition row_to_recipient (fields data : list string) (email_field : string)
    : exn + Recipient :=
  let kwargs := Dict.update Dict.empty (Row_asdict fields data) in
  match Row_getattr fields data email_field with
  | inl e => inl e
  | inr v => Recipient_call (Dict.update kwargs [("email", v)])
  end.

(** The final [for data in map(Row._make, reader)] loop of the generator:
    the Recipients yielded, and the exception that ends it, if any. *)
Fixpoint rows_to_recipients (fields : list string) (email_field : string)
    (rows : list (list string)) : list Recipient * option exn :=
  match rows with
  | [] => ([], None)
  | values :: rest =>
      match Row_make fields values with
      | inl e => ([], Some e)
      | inr data =>
          match row_to_recipient fields data email_field with
          | inl e => ([], Some e)
          | inr r =>
              let (rs, e) := rows_to_recipients fields email_field rest in
              (r :: rs, e)
          end
      end
  end.

(** [csvfile_to_recipients], from the point where the header has been
    split into [field_names] and the reader delivers [rows]: the Recipients
    the generator yields, and the exception that ends it, if any. *)
Definition csvfile_to_recipients (field_names : list string)
    (rows : list (list string)) (email_field : option string)
    : list Recipient * option exn :=
  match namedtuple field_names with
  | inl e => ([], Some e)
  | inr fields =>
      match email_field with
      | Some field => rows_to_recipients fields field rows
      | None =>
          match rows with
          | [] => ([], Some StopIteration)
          | values :: rest =>
              match Row_make fields values with
              | inl e => ([], Some e)
              | inr data =>
                  match guess_email_field fields data fields with
                  | None => ([], Some CouldNotGuessEmailField)
                  | Some field =>
                      match row_to_recipient fields data field with
                      | inl e => ([], Some e)
                      | inr r =>
                          let (rs, e) := rows_to_recipients fields field rest in
                          (r :: rs, e)
                      end
                  end
              end
          end
      end
  end.

(** The detection the specification describes: a field is taken when the
    pattern matches anywhere inside its value. *)
Fixpoint spec_guess_email_field (fields data : list string) : option string :=
  match fields, data with
  | f :: fields', v :: data' =>
      if re_search email_pattern v then Some f
      else spec_guess_email_field fields' data'
  | _, _ => None
  end.

(** The email field the generator works with: the one the caller names,
    else the one guessed from the first data row. *)
Definition resolve_email_field (fields : list string) (rows : list (list string))
    (email_field : option string) : option string :=
  match email_field with
  | Some field => Some field
  | None =>
      match rows with
      | [] => None
      | values :: _ => guess_email_field fields values fields
      end
  end.

(** The pattern matches some prefix of [v]. *)
Definition matches_at_start (r : regex) (v : string) : Prop :=
  exists p q, v = p +:+ q /\ matches r p.

(** The pattern matches some substring of [v]. *)
Definition matches_inside (r : regex) (v : string) : Prop :=
  exists a p q, v = a +:+ p +:+ q /\ matches r p.

(** The merge tags of the columns of a row, in header order, a column
    named email left out. *)
Definition column_tags (fields values : list string) : list merge_var :=
  map (fun kv => MergeVar (upper (fst kv)) (snd kv))
      (Dict.without "email" (combine fields values)).

(** ** Invariants of the composer *)

(** Every stored global merge variable carries an uppercased name. *)
Definition names_uppercase (m : Mail) : Prop :=
  Forall (fun x => upper (mv_name x) = mv_name x) (_merge_vars m).

(** ** Delivery *)

Section Deliver.
Variable Response : Type.
Variable transport : list message -> message -> nat + Response.

(** What handing [payloads] to the transport one after the other comes
    to, from call log [log] on and up to the first failure: the call log
    afterwards, and the failure code or the responses. *)
Fixpoint deliver (log : list message) (payloads : list message)
    : list message * (nat + list Response) :=
  match payloads with
  | [] => (log, inr [])
  | msg :: rest =>
      match transport log msg with
      | inl code => (log ++ [msg], inl code)
      | inr r =>
          let (log', outcome) := deliver (log ++ [msg]) rest in
          (log', match outcome with
                 | inl code => inl code
                 | inr rs => inr (r :: rs)
                 end)
      end
  end.
End Deliver.

(** The parts of a payload that are the same in every send. *)
Definition fixed_flags (msg : message) : Prop :=
  msg_preserve_recipients msg = false
  /\ msg_merge msg = true
  /\ msg_merge_language msg = "mailchimp"
  /\ msg_important msg = false
  /\ msg_headers msg = []
  /\ msg_tags msg = []
  /\ msg_recipient_metadata msg = [].

(** The value a row has in the column [field], if the header has that
    column. *)
Definition column (fields values : list string) (field : string) : option string :=
  match Row_getattr fields values field with
  | inr v => Some v
  | inl _ => None
  end.

(** ** [Mail.add_image] *)

(** A failure of [open] or of reading the file. *)
Inductive oserror : Type :=
  | OSError (errno : nat).

Fixpoint contains_char (c : ascii) (s : string) : bool :=
  match s with
  | EmptyString => false
  | String c' s' => Ascii.eqb c c' || contains_char c s'
  end.

(** [os.path.basename] (POSIX): what follows the last slash. *)
Fixpoint basename (p : string) : string :=
  match p with
  | EmptyString => EmptyString
  | String c p' =>
      if contains_char "/" p' then basename p'
      else if Ascii.eqb c "/" then p' else p
  end.

(** [p] cut at its last dot: what precedes the dot, and the rest from the
    dot on; [None] when [p] has no dot. *)
Fixpoint split_last_dot (p : string) : option (string * string) :=
  match p with
  | EmptyString => None
  | String c p' =>
      match split_last_dot p' with
      | Some (root, ext) => Some (String c root, ext)
      | None => if Ascii.eqb c "." then Some (EmptyString, p) else None
      end
  end.

(** [os.path.splitext(p)[0]] for a [p] without slash: the extension starts
    at the last dot, unless nothing but dots precedes that dot. *)
Definition splitext_root (p : string) : string :=
  match split_last_dot p with
  | Some (root, _) => if all_chars (Ascii.eqb ".") root then p else root
  | None => p
  end.

(** The key of an image: [os.path.splitext(os.path.basename(filename))[0]]. *)
Definition image_name (filename : string) : string :=
  splitext_root (basename filename).

Section Images.
(** [mimetypes.guess_type(filename)[0]] *)
Variable guess_type : string -> option string.
(** [base64.b64encode(content).decode()] *)
Variable b64encode : string -> string.
(** [open(filename, 'rb')] and [read]: the bytes of the file, or the
    failure. *)
Variable open_rb : string -> oserror + string.

(** [Mail.add_image(filename, file, mimetype)]; [file] holds what the given
    file object reads. *)
Definition add_image (filename : string) (file : option string)
    (mimetype : option string) : state -> (oserror + unit) * state :=
  fun s =>
    let mimetype :=
      match mimetype with
      | None => guess_type filename
      | Some t => Some t
      end in
    let name := image_name filename in
    match match file with
          | None => open_rb filename
          | Some content => inr content
          end with
    | inl e => (inl e, s)
    | inr content =>
        (inr tt,
         {| self := set_images
                      (Dict.set name
                         {| img_content := b64encode content;
                            img_type := mimetype;
                            img_name := name |}
                         (_images (self s)))
                      (self s);
            calls := calls s |})
    end.
End Images.

(** The images map is a dictionary (no key twice) and names every entry
    by its key. *)
Definition images_wf (m : Mail) : Prop :=
  List.NoDup (Dict.keys (_images m))
  /\ Forall (fun kv => img_name (snd kv) = fst kv) (_images m).

(** ** The header line *)

(** [s.replace(a, b)] for one-character strings [a] and [b]. *)
Fixpoint replace_char (a b : ascii) (s : string) : string :=
  match s with
  | EmptyString => EmptyString
  | String c s' => String (if Ascii.eqb c a then b else c) (replace_char a b s')
  end.

(** [str.lower()] *)
Fixpoint lower (s : string) : string :=
  match s with
  | EmptyString => EmptyString
  | String c s' => String (lower_char c) (lower s')
  end.

(** The characters the header keeps: [c.isalnum() or c in ['_', ' ']]. *)
Definition header_char (c : ascii) : bool :=
  is_cased c || is_digit c || Ascii.eqb c "_" || Ascii.eqb c " ".

Fixpoint filter_chars (p : ascii -> bool) (s : string) : string :=
  match s with
  | EmptyString => EmptyString
  | String c s' => if p c then String c (filter_chars p s') else filter_chars p s'
  end.

(** The two statements that rewrite [header] in [csvfile_to_recipients];
    [delimiter] is the one character of [dialect.delimiter]. *)
Definition normalize_header (delimiter : ascii) (header : string) : string :=
  filter_chars header_char
    (lower (replace_char delimiter " " (replace_char " " "_" header))).

(** [str.isspace()] on ASCII: tab to carriage return, the four separators
    and the space. *)
Definition is_space (c : ascii) : bool :=
  let n := nat_of_ascii c in
  ((9 <=? n)%nat && (n <=? 13)%nat) || ((28 <=? n)%nat && (n <=? 32)%nat).

Definition starts_word (s : string) : bool :=
  match s with
  | String c _ => negb (is_space c)
  | EmptyString => false
  end.

(** [s.split()]: the maximal runs of characters that are no whitespace. *)
Fixpoint split (s : string) : list string :=
  match s with
  | EmptyString => []
  | String c s' =>
      if is_space c then split s'
      else if starts_word s' then
        match split s' with
        | w :: ws => String c w :: ws
        | [] => [String c EmptyString]
        end
      else String c EmptyString :: split s'
  end.

(** How [namedtuple] reads a string of field names:
    [field_names.replace(',', ' ').split()]. *)
Definition field_names_of (field_names : string) : list string :=
  split (replace_char "," " " field_names).

(** [csvfile_to_recipients] from the header line on: [header] is the line
    read first, [delimiter] the delimiter the sniffer found in it, [rows]
    what the reader delivers. *)
Definition csvfile_to_recipients_from (delimiter : ascii) (header : string)
    (rows : list (list string)) (email_field : option string)
    : list Recipient * option exn :=
  csvfile_to_recipients (field_names_of (normalize_header delimiter header))
    rows email_field.

(** The columns of a header line joined by the delimiter. *)
Fixpoint join_columns (delimiter : ascii) (columns : list string) : string :=
  match columns with
  | [] => EmptyString
  | [col] => col
  | col :: rest => col +:+ String delimiter (join_columns delimiter rest)
  end.


(** A character of the ASCII range. *)
Definition is_ascii_char (c : ascii) : bool := (nat_of_ascii c <? 128)%nat.

(** A character a field name is made of: a lowercase letter, a digit or an
    underscore. *)
Definition field_char (c : ascii) : bool :=
  is_lower c || is_digit c || Ascii.eqb c "_".

(** ** [Mail.send] over a generator *)

(** What one pass of [zip_longest] comes to when the shared iterator is a
    generator that may raise. *)
Inductive pass_outcome (A : Type) : Type :=
  | PValues (values : list (option A)) (st : zl_state A)
  | PReturned
  | PRaised (e : exn).
Arguments PValues {A} values st.
Arguments PReturned {A}.
Arguments PRaised {A} e.

Section SendGenerator.
Context {A : Type}.

(** [zl_pass] for a generator that yields [pending] and then ends, either
    normally ([ending] is [None]) or by raising ([Some e]): the exception
    of a [next] goes through [zip_longest] as it is. *)
Fixpoint zl_pass_gen (its : list arg) (num_active : Z) (pending : list A)
    (ending : option exn) : pass_outcome A :=
  match its with
  | [] => PValues [] (ZL [] num_active pending)
  | Repeat :: its' =>
      match zl_pass_gen its' num_active pending ending with
      | PValues values (ZL its'' n p) =>
          PValues (None :: values) (ZL (Repeat :: its'') n p)
      | PReturned => PReturned
      | PRaised e => PRaised e
      end
  | Shared :: its' =>
      match pending with
      | x :: pending' =>
          match zl_pass_gen its' num_active pending' ending with
          | PValues values (ZL its'' n p) =>
              PValues (Some x :: values) (ZL (Shared :: its'') n p)
          | PReturned => PReturned
          | PRaised e => PRaised e
          end
      | [] =>
          match ending with
          | Some e => PRaised e
          | None =>
              let num_active := (num_active - 1)%Z in
              if (num_active =? 0)%Z then PReturned
              else
                match zl_pass_gen its' num_active [] None with
                | PValues values (ZL its'' n p) =>
                    PValues (None :: values) (ZL (Repeat :: its'') n p)
                | PReturned => PReturned
                | PRaised e => PRaised e
                end
          end
      end
  end.
End SendGenerator.

Section SendGen.
Variable Response : Type.
Variable transport : list message -> message -> nat + Response.

(** The [for] loop of [send] as it runs: a batch is pulled from the
    generator, handled, and only then is the next one pulled. *)
Fixpoint send_gen_loop (fuel : nat) (dry_run : bool) (ending : option exn)
    (st : zl_state Recipient) (result : list Response) : M (list Response) :=
  match fuel with
  | O => raise Diverged
  | S fuel' =>
      match zl_pass_gen (iterators st) (num_active st) (pending st) ending with
      | PReturned => ret result
      | PRaised e => raise e
      | PValues batch st' =>
          result' <- send_loop Response transport dry_run [batch] result ;;
          send_gen_loop fuel' dry_run ending st' result'
      end
  end.

(** [Mail.send] on a generator given by what it yields and how it ends. *)
Definition send_gen (recipients : list Recipient * option exn) (batch_size : Z)
    (dry_run : bool) : M (list Response) :=
  let args := replicate (Z.to_nat batch_size) Shared in
  let num_active := Z.of_nat (length args) in
  if (num_active =? 0)%Z then ret []
  else send_gen_loop (S (length (fst recipients))) dry_run (snd recipients)
         (ZL args num_active (fst recipients)) [].

(** The recipients part of [main]:
    [mailer.send(csvfile_to_recipients(...), dry_run=...)], with the
    default batch size of 50. *)
Definition send_csvfile (field_names : list string) (rows : list (list string))
    (email_field : option string) (dry_run : bool) : M (list Response) :=
  send_gen (csvfile_to_recipients field_names rows email_field) 50 dry_run.
End SendGen.

(** * Properties *)

(** ** Recipient *)

Example title_john : title "john smith" = "John Smith".
Proof. reflexivity. Qed.

Example title_apostrophe : title "jANE o'neil-x2y" = "Jane O'Neil-X2Y".
Proof. reflexivity. Qed.

Example upper_another_test : upper "another-test" = "ANOTHER-TEST".
Proof. reflexivity. Qed.

Lemma str_truthy_true s : str_truthy s = true <-> s <> "".
Proof. destruct s; simpl; split; congruence. Qed.

(** C4: for every Recipient construction the derived name is the
    title-cased form of the explicit name if supplied; else of
    "first_name last_name" if both are present; else of first_name alone
    if only it is present; else it is empty.  A part is present when it
    has a non-empty value, as the truth-value tests of the source read
    it. *)
Theorem Recipient_name_law email kwargs :
  name (Recipient_init email kwargs) = name_law supplied_nonempty kwargs.
Proof.
  unfold Recipient_init, name_law, Recipient_name; simpl.
  destruct (Dict.get "name" kwargs) as [n|]; simpl; [reflexivity|].
  destruct (Dict.get "first_name" kwargs) as [f|]; simpl; [|reflexivity].
  destruct (str_truthy f) eqn:Hf; simpl; [|reflexivity].
  destruct (Dict.get "last_name" kwargs) as [l|]; simpl; [|reflexivity].
  destruct (str_truthy l); reflexivity.
Qed.

(** C10: without an explicit name, an empty first_name gives the empty
    name whatever last_name is, and an empty last_name with a non-empty
    first_name gives the title-cased first_name alone. *)
Theorem Recipient_name_empty_parts email kwargs f :
  Dict.get "name" kwargs = None ->
  Dict.get "first_name" kwargs = Some f ->
  (f = "" -> name (Recipient_init email kwargs) = "")
  /\ (f <> "" -> Dict.get "last_name" kwargs = Some "" ->
      name (Recipient_init email kwargs) = title f).
Proof.
  intros Hn Hf. unfold Recipient_init, Recipient_name; simpl.
  rewrite Hn, Hf; simpl. split.
  - intros ->. reflexivity.
  - intros Hne Hl. rewrite Hl; simpl.
    apply str_truthy_true in Hne. rewrite Hne. reflexivity.
Qed.

Lemma Recipient_name_empty_parts_witness :
  name (Recipient_init "a@b.c" [("first_name", ""); ("last_name", "smith")]) = ""
  /\ name (Recipient_init "a@b.c" [("first_name", "jane"); ("last_name", "")])
     = "Jane".
Proof.
  split.
  - apply (proj1 (Recipient_name_empty_parts "a@b.c"
             [("first_name", ""); ("last_name", "smith")] ""
             eq_refl eq_refl)).
    reflexivity.
  - apply (proj2 (Recipient_name_empty_parts "a@b.c"
             [("first_name", "jane"); ("last_name", "")] "jane"
             eq_refl eq_refl)).
    + discriminate.
    + reflexivity.
Defined.

(** ** Global merge variables and images *)

Lemma first_true_none iterable pred :
  (forall x, In x iterable -> pred x = false) ->
  first_true iterable PyFalse pred = PyFalse.
Proof.
  induction iterable as [|x rest IH]; intros Hp; simpl; [reflexivity|].
  rewrite (Hp x) by (left; reflexivity).
  apply IH. intros y Hy. apply Hp. right. exact Hy.
Qed.

Lemma list_remove_False l : list_remove PyFalse l = None.
Proof. induction l as [|y l IH]; simpl; [|rewrite IH]; reflexivity. Qed.

Lemma Dict_get_None_keys {V} k (d : Dict.t V) :
  Dict.get k d = None <-> ~ In k (Dict.keys d).
Proof.
  induction d as [|[k' v] d IH]; simpl.
  - tauto.
  - destruct (String.eqb_spec k k') as [->|Hne].
    + split; [discriminate | intros H; exfalso; apply H; left; reflexivity].
    + rewrite IH. split; [intros H [E|I]; [congruence | tauto] | tauto].
Qed.

Lemma Dict_del_None {V} k (d : Dict.t V) :
  ~ In k (Dict.keys d) -> Dict.del k d = None.
Proof.
  induction d as [|[k' v] d IH]; simpl; intros H; [reflexivity|].
  destruct (String.eqb_spec k k') as [->|Hne]; [tauto|].
  rewrite IH by tauto. reflexivity.
Qed.

(** C7: from empty global merge variables, adding ("test","value") and
    ("another-test","another-value") stores two entries, and removing
    "another-test" then succeeds and leaves exactly the entry
    (TEST, value). *)
Theorem global_merge_vars_round_trip m sent :
  let s0 := State (set_merge_vars [] m) sent in
  let added := (add_global_merge_var "test" "value" ;;;
                add_global_merge_var "another-test" "another-value") s0 in
  fst added = inr tt
  /\ length (global_merge_vars (self (snd added))) = 2
  /\ remove_global_merge_var "another-test" (snd added)
     = (inr tt, State (set_merge_vars [MergeVar "TEST" "value"] m) sent).
Proof. repeat split. Qed.

(** C8: removing a global merge variable whose uppercased name matches no
    stored entry raises ValueError, removing an image whose key is not in
    the images map raises KeyError, and either failing call leaves the
    whole state, global_merge_vars and images included, as it was. *)
Theorem remove_missing_fails s var key :
  ((forall x, In x (_merge_vars (self s)) -> mv_name x <> upper var) ->
   remove_global_merge_var var s = (inl ValueError, s))
  /\ (~ In key (Dict.keys (_images (self s))) ->
      remove_image key s = (inl KeyError, s)).
Proof.
  split; intros H.
  - unfold remove_global_merge_var, bind, get_self, raise.
    rewrite first_true_none, list_remove_False; [reflexivity|].
    intros x Hx. apply String.eqb_neq. apply H. exact Hx.
  - unfold remove_image, bind, get_self, raise.
    rewrite Dict_del_None by exact H. reflexivity.
Qed.

Lemma remove_missing_fails_witness :
  remove_global_merge_var "missing"
    (State (mkMail (Some "<p>*|NAME|*</p>")
                   [("logo", Image "AAAA" (Some "image/png") "logo")]
                   [MergeVar "TEST" "value"] "subject" "from@example.com"
                   "sender") [])
  = (inl ValueError,
     State (mkMail (Some "<p>*|NAME|*</p>")
                   [("logo", Image "AAAA" (Some "image/png") "logo")]
                   [MergeVar "TEST" "value"] "subject" "from@example.com"
                   "sender") [])
  /\ remove_image "banner"
       (State (mkMail (Some "<p>*|NAME|*</p>")
                      [("logo", Image "AAAA" (Some "image/png") "logo")]
                      [MergeVar "TEST" "value"] "subject" "from@example.com"
                      "sender") [])
     = (inl KeyError,
        State (mkMail (Some "<p>*|NAME|*</p>")
                      [("logo", Image "AAAA" (Some "image/png") "logo")]
                      [MergeVar "TEST" "value"] "subject" "from@example.com"
                      "sender") []).
Proof.
  split.
  - apply (proj1 (remove_missing_fails _ "missing" "banner")).
    intros x [<-|[]]. discriminate.
  - apply (proj2 (remove_missing_fails _ "missing" "banner")).
    intros [E|[]]. discriminate.
Defined.

(** The round trip of the test suite, from a freshly built composer. *)
Example Mail_init_round_trip :
  (Mail_init "subject" "from_name" "from_email" (Some "string template") ;;;
   add_global_merge_var "test" "value" ;;;
   add_global_merge_var "another-test" "another-value" ;;;
   remove_global_merge_var "another-test")
    (State (mkMail None [] [] "" "" "") [])
  = (inr tt,
     State (mkMail (Some "string template") [] [MergeVar "TEST" "value"]
                   "subject" "from_email" "from_name") []).
Proof. reflexivity. Qed.

(** ** The grouper *)

Section GrouperFacts.
Context {A : Type}.
Implicit Types (p l : list A) (k m n : nat) (na : Z).

Lemma zl_pass_repeat m na p :
  zl_pass (replicate m Repeat) na p
  = Some (replicate m None, ZL (replicate m Repeat) na p).
Proof. induction m as [|m IH]; simpl; [|rewrite IH]; reflexivity. Qed.

(** Every position that finds the shared iterator exhausted is replaced,
    as long as some argument stays active. *)
Lemma zl_pass_exhausted k m na :
  (Z.of_nat k < na)%Z ->
  zl_pass (replicate k Shared ++ replicate m Repeat) na (@nil A)
  = Some (replicate (k + m) None,
          ZL (replicate (k + m) Repeat) (na - Z.of_nat k) []).
Proof.
  revert na. induction k as [|k IH]; intros na Hk; simpl replicate; simpl app.
  - rewrite zl_pass_repeat. simpl. rewrite Z.sub_0_r. reflexivity.
  - simpl. destruct (Z.eqb_spec (na - 1) 0) as [E|_]; [lia|].
    rewrite IH by lia. do 3 f_equal. lia.
Qed.

(** The generator returns in the pass in which its last active argument
    finds the iterator exhausted. *)
Lemma zl_pass_return k m na :
  (1 <= na <= Z.of_nat k)%Z ->
  zl_pass (replicate k Shared ++ replicate m Repeat) na (@nil A) = None.
Proof.
  revert na. induction k as [|k IH]; intros na Hk; [lia|]. simpl.
  destruct (Z.eqb_spec (na - 1) 0) as [E|Hne]; [reflexivity|].
  rewrite IH by lia. reflexivity.
Qed.

Lemma zl_pass_full k m na p :
  k <= length p ->
  zl_pass (replicate k Shared ++ replicate m Repeat) na p
  = Some (map Some (take k p) ++ replicate m None,
          ZL (replicate k Shared ++ replicate m Repeat) na (drop k p)).
Proof.
  revert p. induction k as [|k IH]; intros p Hk; simpl.
  - apply zl_pass_repeat.
  - destruct p as [|x p]; simpl in Hk; [lia|].
    rewrite IH by lia. reflexivity.
Qed.

Lemma zl_pass_short k m na p :
  length p < k ->
  (Z.of_nat (k - length p) < na)%Z ->
  zl_pass (replicate k Shared ++ replicate m Repeat) na p
  = Some (map Some p ++ replicate (k - length p + m) None,
          ZL (replicate (length p) Shared ++ replicate (k - length p + m) Repeat)
             (na - Z.of_nat (k - length p)) []).
Proof.
  revert k. induction p as [|x p IH]; intros k Hk Hna.
  - simpl length in *. rewrite Nat.sub_0_r in *.
    apply zl_pass_exhausted. exact Hna.
  - destruct k as [|k]; simpl in Hk; [lia|]. simpl.
    simpl in Hna. rewrite IH by lia. reflexivity.
Qed.

(** Unfolding of [chunks] on a non-empty list. *)
Lemma chunks_cons fuel n x l :
  chunks (S fuel) n (x :: l)
  = (map Some (take n (x :: l)) ++ replicate (n - length (x :: l)) None)
      :: chunks fuel n (drop n (x :: l)).
Proof. reflexivity. Qed.

Lemma chunks_nil fuel n : chunks fuel n (@nil A) = [].
Proof. destruct fuel; reflexivity. Qed.

(** Any fuel that covers the list gives the same chunks. *)
Lemma chunks_fuel n fuel1 : forall fuel2 l,
  1 <= n -> length l <= fuel1 -> length l <= fuel2 ->
  chunks fuel1 n l = chunks fuel2 n l.
Proof.
  induction fuel1 as [|fuel1 IH]; intros fuel2 l Hn H1 H2.
  - destruct l; simpl in H1; [|lia]. rewrite !chunks_nil. reflexivity.
  - destruct l as [|x l]; [rewrite !chunks_nil; reflexivity|].
    destruct fuel2 as [|fuel2]; simpl in H2; [lia|].
    rewrite !chunks_cons. f_equal.
    assert (length (drop n (x :: l)) <= length l)
      by (rewrite length_drop; simpl; lia).
    simpl in H1. apply IH; lia.
Qed.

Lemma zl_loop_S fuel (st : zl_state A) :
  zl_loop (S fuel) st
  = match zl_pass (iterators st) (num_active st) (pending st) with
    | None => Some []
    | Some (values, st') =>
        match zl_loop fuel st' with
        | None => None
        | Some rest => Some (values :: rest)
        end
    end.
Proof. reflexivity. Qed.

(** The generator of [grouper] computes the chunks, given one unit of
    fuel more than there are items. *)
Lemma zl_loop_chunks n : 1 <= n -> forall fuel p,
  length p < fuel ->
  zl_loop fuel (ZL (replicate n Shared) (Z.of_nat n) p)
  = Some (chunks (length p) n p).
Proof.
  intros Hn. induction fuel as [|fuel IH]; intros p Hfuel; [lia|].
  rewrite zl_loop_S. cbn [iterators num_active pending].
  destruct p as [|x p].
  - pose proof (zl_pass_return n 0 (Z.of_nat n)) as Hr.
    simpl in Hr. rewrite app_nil_r in Hr. rewrite Hr by lia. reflexivity.
  - destruct (le_lt_dec n (length (x :: p))) as [Hfull|Hshort].
    + pose proof (zl_pass_full n 0 (Z.of_nat n) (x :: p) Hfull) as Hp.
      simpl replicate in Hp. rewrite !app_nil_r in Hp. rewrite Hp.
      assert (Hd : length (drop n (x :: p)) <= length p)
        by (rewrite length_drop; simpl; lia).
      simpl in Hfuel. rewrite IH by lia.
      change (chunks (length (x :: p)) n (x :: p))
        with (chunks (S (length p)) n (x :: p)).
      rewrite chunks_cons.
      replace (n - length (x :: p)) with 0 by lia. simpl replicate.
      rewrite app_nil_r.
      rewrite (chunks_fuel n (length p) (length (drop n (x :: p)))) by lia.
      reflexivity.
    + pose proof (zl_pass_short n 0 (Z.of_nat n) (x :: p) Hshort) as Hp.
      assert (Hj : 1 <= length (x :: p)) by (simpl; lia).
      rewrite app_nil_r in Hp. rewrite Hp by lia. clear Hp.
      destruct fuel as [|fuel]; [simpl in Hfuel; lia|].
      rewrite zl_loop_S. cbn [iterators num_active pending].
      rewrite zl_pass_return by lia.
      change (chunks (length (x :: p)) n (x :: p))
        with (chunks (S (length p)) n (x :: p)).
      rewrite chunks_cons.
      rewrite take_ge by lia.
      rewrite drop_ge by lia.
      rewrite chunks_nil. rewrite Nat.add_0_r. reflexivity.
Qed.

(** [grouper] always returns: for a positive size it yields the chunks,
    for any other size it yields nothing. *)
Lemma grouper_chunks l (n : Z) :
  (0 < n)%Z -> grouper l n = Some (chunks (length l) (Z.to_nat n) l).
Proof.
  intros Hn. unfold grouper, zip_longest. rewrite length_replicate.
  destruct (Z.eqb_spec (Z.of_nat (Z.to_nat n)) 0) as [E|_]; [lia|].
  apply zl_loop_chunks; lia.
Qed.

Lemma grouper_nonpositive l (n : Z) :
  (n <= 0)%Z -> grouper l n = Some [].
Proof.
  intros Hn. unfold grouper, zip_longest.
  replace (Z.to_nat n) with 0 by lia. reflexivity.
Qed.
End GrouperFacts.

Section ChunksFacts.
Context {A : Type}.
Implicit Types (l t : list A) (b : list (option A)) (n k : nat).

Lemma reals_padded t k : reals (map Some t ++ replicate k None) = t.
Proof.
  unfold reals. induction t as [|x t IH]; simpl.
  - induction k as [|k IHk]; simpl; [reflexivity | exact IHk].
  - f_equal. exact IH.
Qed.

(** Induction along the chunks of a list. *)
Lemma chunks_induction n (P : list A -> list (list (option A)) -> Prop) :
  1 <= n ->
  P [] [] ->
  (forall l rest, l <> [] ->
     rest = chunks (length (drop n l)) n (drop n l) ->
     P (drop n l) rest ->
     P l ((map Some (take n l) ++ replicate (n - length l) None) :: rest)) ->
  forall l, P l (chunks (length l) n l).
Proof.
  intros Hn Hnil Hcons l.
  remember (length l) as len eqn:Hlen.
  revert l Hlen. induction len as [len IH] using lt_wf_ind. intros l ->.
  destruct l as [|x l]; [exact Hnil|].
  change (chunks (length (x :: l)) n (x :: l))
    with (chunks (S (length l)) n (x :: l)).
  rewrite chunks_cons.
  assert (Hd : length (drop n (x :: l)) <= length l)
    by (rewrite length_drop; simpl; lia).
  rewrite (chunks_fuel n (length l) (length (drop n (x :: l)))) by lia.
  apply Hcons; [discriminate | reflexivity |].
  apply (IH (length (drop n (x :: l)))); [simpl; lia | reflexivity].
Qed.

Lemma chunks_slots n l : 1 <= n ->
  Forall (fun b => length b = n) (chunks (length l) n l).
Proof.
  intros Hn. apply (chunks_induction n (fun _ bs => Forall _ bs) Hn).
  - constructor.
  - intros l' rest _ _ IH. constructor; [|exact IH].
    rewrite length_app, length_map, length_take, length_replicate. lia.
Qed.

Lemma chunks_concat n l : 1 <= n ->
  concat (map reals (chunks (length l) n l)) = l.
Proof.
  intros Hn.
  apply (chunks_induction n (fun l bs => concat (map reals bs) = l) Hn).
  - reflexivity.
  - intros l' rest _ _ IH. simpl. rewrite reals_padded, IH.
    apply take_drop.
Qed.

(** Every chunk holds its real items first, then only sentinels, and
    holds at least one real item. *)
Lemma chunks_shape n l : 1 <= n ->
  Forall (fun b => b = map Some (reals b) ++ replicate (n - length (reals b)) None
                   /\ 1 <= length (reals b) <= n)
         (chunks (length l) n l).
Proof.
  intros Hn. apply (chunks_induction n (fun _ bs => Forall _ bs) Hn).
  - constructor.
  - intros l' rest Hne _ IH. constructor; [|exact IH].
    rewrite reals_padded, length_take.
    assert (1 <= length l') by (destruct l'; [congruence | simpl; lia]).
    split; [f_equal; f_equal; lia | lia].
Qed.

Lemma chunks_count n l : 1 <= n ->
  length (chunks (length l) n l) = (length l + n - 1) / n.
Proof.
  intros Hn.
  apply (chunks_induction n
           (fun l bs => length bs = (length l + n - 1) / n) Hn).
  - simpl. symmetry. apply Nat.div_small. lia.
  - intros l' rest Hne _ IH. simpl. rewrite IH, length_drop.
    assert (1 <= length l') by (destruct l'; [congruence | simpl; lia]).
    replace (length l' + n - 1) with (length l' - 1 + 1 * n) by lia.
    rewrite Nat.div_add by lia.
    destruct (le_lt_dec n (length l')) as [Hge|Hlt].
    + replace (length l' - n + n - 1) with (length l' - 1) by lia. lia.
    + replace (length l' - n + n - 1) with (n - 1) by lia.
      rewrite !Nat.div_small by lia. reflexivity.
Qed.

Lemma last_count_sub len n : 1 <= n -> n < len ->
  last_count (len - n) n = last_count len n.
Proof.
  intros Hn Hlt. unfold last_count.
  assert (E : len mod n = (len - n) mod n).
  { replace len with (len - n + 1 * n) at 1 by lia.
    apply Nat.Div0.mod_add. }
  rewrite E. reflexivity.
Qed.

Lemma last_count_small len n : 1 <= len <= n -> last_count len n = len.
Proof.
  intros H. unfold last_count.
  destruct (Nat.eq_dec len n) as [->|Hne].
  - rewrite Nat.Div0.mod_same. reflexivity.
  - rewrite Nat.mod_small by lia.
    destruct (Nat.eqb_spec len 0); [lia | reflexivity].
Qed.

(** Every chunk before the last is full, and the last holds
    [last_count] real items. *)
Lemma chunks_last n l : 1 <= n ->
  (forall i b, chunks (length l) n l !! i = Some b ->
               S i < length (chunks (length l) n l) ->
               length (reals b) = n)
  /\ (forall b, last (chunks (length l) n l) = Some b ->
                length (reals b) = last_count (length l) n).
Proof.
  intros Hn.
  apply (chunks_induction n
    (fun l bs =>
       (forall i b, bs !! i = Some b -> S i < length bs -> length (reals b) = n)
       /\ (forall b, last bs = Some b ->
                     length (reals b) = last_count (length l) n)) Hn).
  - split; [intros i b Hb; destruct i; discriminate | discriminate].
  - intros l' rest Hne Hrest [IHfull IHlast].
    assert (Hlen : 1 <= length l') by (destruct l'; [congruence | simpl; lia]).
    assert (Hrest_nil : length l' <= n -> rest = []).
    { intros Hle. rewrite Hrest, drop_ge by lia. reflexivity. }
    assert (Hrest_cons : n < length l' -> rest <> []).
    { intros Hlt E. apply (f_equal length) in E. rewrite Hrest in E.
      rewrite chunks_count, length_drop in E by exact Hn. simpl in E.
      assert (Hq : 1 <= (length l' - n + n - 1) / n).
      { apply Nat.div_le_lower_bound; lia. }
      lia. }
    split.
    + intros [|i] b Hb Hi; simpl in Hb, Hi.
      * injection Hb as <-. rewrite reals_padded, length_take.
        destruct (le_lt_dec (length l') n) as [Hle|Hlt]; [|lia].
        rewrite (Hrest_nil Hle) in Hi. simpl in Hi. lia.
      * apply (IHfull i b Hb). lia.
    + intros b Hb. destruct rest as [|b' rest'].
      * injection Hb as <-. rewrite reals_padded, length_take.
        destruct (le_lt_dec (length l') n) as [Hle|Hlt].
        -- rewrite last_count_small by lia. lia.
        -- exfalso. apply (Hrest_cons Hlt). reflexivity.
      * destruct (le_lt_dec (length l') n) as [Hle|Hlt].
        -- specialize (Hrest_nil Hle). discriminate.
        -- rewrite <- last_count_sub by lia.
           rewrite <- length_drop. apply IHlast. exact Hb.
Qed.
End ChunksFacts.

Lemma ceil_div_least a b : 1 <= b ->
  a <= ceil_div a b * b /\ (forall q, a <= q * b -> ceil_div a b <= q).
Proof.
  intros Hb. unfold ceil_div. split.
  - pose proof (Nat.div_mod_eq (a + b - 1) b) as E.
    pose proof (Nat.mod_upper_bound (a + b - 1) b) as U. nia.
  - intros q Hq.
    assert (H : (a + b - 1) / b < S q); [|lia].
    apply Nat.Div0.div_lt_upper_bound. nia.
Qed.

(** C1: for every sequence of length L and every batch size n > 0 the
    grouper returns ceil(L/n) batches of exactly n slots each; a batch
    holds its real items first and sentinels after them, every batch
    before the last is full, the last holds L mod n real items (n when n
    divides L), and the real items of the batches, concatenated in order,
    are the input. *)
Theorem grouper_batching_law {A : Type} (l : list A) (n : Z) :
  (0 < n)%Z ->
  exists batches,
    grouper l n = Some batches
    /\ length batches = ceil_div (length l) (Z.to_nat n)
    /\ Forall (fun b =>
                 length b = Z.to_nat n
                 /\ b = map Some (reals b)
                          ++ replicate (Z.to_nat n - length (reals b)) None)
              batches
    /\ (forall i b, batches !! i = Some b -> S i < length batches ->
                    length (reals b) = Z.to_nat n)
    /\ (forall b, last batches = Some b ->
                  length (reals b) = last_count (length l) (Z.to_nat n))
    /\ concat (map reals batches) = l.
Proof.
  intros Hn. assert (Hk : 1 <= Z.to_nat n) by lia.
  exists (chunks (length l) (Z.to_nat n) l).
  split; [apply grouper_chunks; exact Hn|].
  split; [apply chunks_count; exact Hk|].
  split.
  - pose proof (chunks_slots (Z.to_nat n) l Hk) as Hs.
    pose proof (chunks_shape (Z.to_nat n) l Hk) as Hsh.
    rewrite Forall_forall in *. intros b Hb.
    split; [apply Hs; exact Hb | apply Hsh; exact Hb].
  - destruct (chunks_last (Z.to_nat n) l Hk) as [Hfull Hlast].
    split; [exact Hfull|]. split; [exact Hlast|].
    apply chunks_concat. exact Hk.
Qed.

Lemma grouper_batching_law_witness :
  exists batches,
    grouper ["a"; "b"; "c"; "d"; "e"; "f"; "g"] 3 = Some batches
    /\ length batches = ceil_div 7 3
    /\ Forall (fun b =>
                 length b = 3
                 /\ b = map Some (reals b) ++ replicate (3 - length (reals b)) None)
              batches
    /\ (forall i b, batches !! i = Some b -> S i < length batches ->
                    length (reals b) = 3)
    /\ (forall b, last batches = Some b -> length (reals b) = last_count 7 3)
    /\ concat (map reals batches) = ["a"; "b"; "c"; "d"; "e"; "f"; "g"].
Proof.
  apply (grouper_batching_law ["a"; "b"; "c"; "d"; "e"; "f"; "g"] 3). lia.
Defined.

Example grouper_seven_by_three :
  grouper ["a"; "b"; "c"; "d"; "e"; "f"; "g"] 3
  = Some [[Some "a"; Some "b"; Some "c"]; [Some "d"; Some "e"; Some "f"];
          [Some "g"; None; None]].
Proof. reflexivity. Qed.

(** ** send *)

Section SendFacts.
Variable Response : Type.
Variable transport : list message -> message -> nat + Response.

Lemma send_loop_sentinels dry_run batch rest result s :
  reals batch = [] ->
  send_loop Response transport dry_run (batch :: rest) result s = (inl ValueError, s).
Proof. intros E. simpl. rewrite E. reflexivity. Qed.

Lemma send_loop_dry batch rest result s :
  reals batch <> [] ->
  send_loop Response transport true (batch :: rest) result s = send_loop Response transport true rest result s.
Proof.
  intros Hne. simpl. destruct (reals batch) as [|r rs]; [congruence|].
  reflexivity.
Qed.

Lemma send_loop_wet batch rest result s :
  reals batch <> [] ->
  send_loop Response transport false (batch :: rest) result s
  = let msg := batch_message (self s) batch in
    let s' := {| self := self s; calls := calls s ++ [msg] |} in
    match transport (calls s) msg with
    | inl code => (inl (TransportError code), s')
    | inr r => send_loop Response transport false rest (result ++ [r]) s'
    end.
Proof.
  intros Hne. unfold batch_message.
  simpl. destruct (reals batch) as [|r rs]; [congruence|].
  unfold bind, zip_star, ret, get_self, client_send. simpl.
  rewrite !map_map. simpl.
  destruct (transport _ _); reflexivity.
Qed.

Lemma batch_message_skeleton m batch :
  carries_skeleton m (batch_message m batch).
Proof. repeat split. Qed.

(** The loop leaves the composer alone and only appends payloads that
    carry its skeleton. *)
Lemma send_loop_frame dry_run batches : forall result s,
  let s' := snd (send_loop Response transport dry_run batches result s) in
  self s' = self s
  /\ exists sent, calls s' = calls s ++ sent
                  /\ Forall (carries_skeleton (self s)) sent.
Proof.
  induction batches as [|batch rest IH]; intros result s.
  - simpl. split; [reflexivity|]. exists []. rewrite app_nil_r. auto.
  - destruct (reals batch) as [|r rs] eqn:Hr.
    + rewrite send_loop_sentinels by exact Hr. simpl.
      split; [reflexivity|]. exists []. rewrite app_nil_r. auto.
    + assert (Hne : reals batch <> []) by congruence.
      destruct dry_run.
      * rewrite send_loop_dry by exact Hne. apply IH.
      * rewrite send_loop_wet by exact Hne. cbv zeta.
        destruct (transport _ _) as [code|resp].
        -- simpl. split; [reflexivity|].
           exists [batch_message (self s) batch].
           split; [reflexivity|].
           constructor; [apply batch_message_skeleton | constructor].
        -- specialize (IH (result ++ [resp])
                          {| self := self s;
                             calls := calls s ++ [batch_message (self s) batch] |}).
           cbv zeta in IH. simpl self in IH. simpl calls in IH.
           destruct IH as [IHself (sent & Hsent & Hall)].
           split; [exact IHself|].
           exists (batch_message (self s) batch :: sent).
           rewrite Hsent, <- app_assoc. split; [reflexivity|].
           constructor; [apply batch_message_skeleton | exact Hall].
Qed.

Lemma send_loop_dry_run batches : forall result s,
  Forall (fun b => reals b <> []) batches ->
  send_loop Response transport true batches result s = (inr result, s).
Proof.
  induction batches as [|batch rest IH]; intros result s Hall.
  - reflexivity.
  - inversion Hall as [|? ? Hb Hrest]; subst.
    rewrite send_loop_dry by exact Hb. apply IH. exact Hrest.
Qed.

Lemma send_loop_no_ValueError dry_run batches : forall result s,
  Forall (fun b => reals b <> []) batches ->
  fst (send_loop Response transport dry_run batches result s) <> inl ValueError.
Proof.
  induction batches as [|batch rest IH]; intros result s Hall.
  - discriminate.
  - inversion Hall as [|? ? Hb Hrest]; subst. destruct dry_run.
    + rewrite send_loop_dry by exact Hb. apply IH. exact Hrest.
    + rewrite send_loop_wet by exact Hb. cbv zeta.
      destruct (transport _ _) as [code|resp]; [discriminate|].
      apply IH. exact Hrest.
Qed.

Lemma grouper_real_batches (recipients : list Recipient) (n : Z) :
  exists batches, grouper recipients n = Some batches
                  /\ Forall (fun b => reals b <> []) batches.
Proof.
  destruct (Z_lt_le_dec 0 n) as [Hpos|Hnon].
  - exists (chunks (length recipients) (Z.to_nat n) recipients).
    split; [apply grouper_chunks; exact Hpos|].
    eapply Forall_impl; [apply chunks_shape; lia|].
    intros b [_ Hb] E. rewrite E in Hb. simpl in Hb. lia.
  - exists []. split; [apply grouper_nonpositive; exact Hnon | constructor].
Qed.
End SendFacts.

(** C5: for every finite recipient sequence and every batch size n > 0 the
    grouper returns, and no batch it returns consists of sentinels only;
    so the zip step of send always has a recipient to unpack and send
    never ends in its ValueError. *)
Theorem grouper_no_sentinel_batch (recipients : list Recipient) (n : Z) :
  (0 < n)%Z ->
  exists batches,
    grouper recipients n = Some batches
    /\ Forall (fun b => exists r, In (Some r) b) batches
    /\ forall Response transport dry_run s,
         fst (send Response transport recipients n dry_run s) <> inl ValueError.
Proof.
  intros Hn. destruct (grouper_real_batches recipients n) as (batches & Hg & Hall).
  exists batches. split; [exact Hg|]. split.
  - eapply Forall_impl; [exact Hall|]. intros b Hb.
    destruct (reals b) as [|r rs] eqn:Hr; [congruence|].
    exists r. clear Hb. revert Hr. unfold reals.
    induction b as [|[x|] b IH]; simpl; intros Hr; [discriminate| |].
    + injection Hr as -> _. left. reflexivity.
    + right. apply IH. exact Hr.
  - intros Response transport dry_run s. unfold send. rewrite Hg.
    apply send_loop_no_ValueError. exact Hall.
Qed.

Lemma grouper_no_sentinel_batch_witness :
  exists batches,
    grouper [Recipient_init "a@x.io" []; Recipient_init "b@x.io" [];
             Recipient_init "c@x.io" []] 2 = Some batches
    /\ Forall (fun b => exists r, In (Some r) b) batches
    /\ forall Response transport dry_run s,
         fst (send Response transport
                [Recipient_init "a@x.io" []; Recipient_init "b@x.io" [];
                 Recipient_init "c@x.io" []] 2 dry_run s) <> inl ValueError.
Proof.
  apply (grouper_no_sentinel_batch
           [Recipient_init "a@x.io" []; Recipient_init "b@x.io" [];
            Recipient_init "c@x.io" []] 2).
  lia.
Defined.

(** C6: with dry_run set, send returns the empty result list and makes no
    transport call, for every recipient sequence and every batch size. *)
Theorem send_dry_run (Response : Type) transport
    (recipients : list Recipient) (batch_size : Z) (s : state) :
  send Response transport recipients batch_size true s = (inr [], s).
Proof.
  unfold send.
  destruct (grouper_real_batches recipients batch_size) as (batches & -> & Hall).
  apply send_loop_dry_run. exact Hall.
Qed.

(** C9: send leaves the composer (template, images, global merge
    variables, subject, sender name and address) as it was, whether it
    returns or fails; the payloads it hands to the transport carry that
    skeleton, and so do those of any later send. *)
Theorem send_preserves_composer (Response : Type) transport
    (recipients : list Recipient) (batch_size : Z) (dry_run : bool) (s : state) :
  let s1 := snd (send Response transport recipients batch_size dry_run s) in
  self s1 = self s
  /\ (exists sent, calls s1 = calls s ++ sent
                   /\ Forall (carries_skeleton (self s)) sent)
  /\ forall recipients' batch_size' dry_run',
       let s2 := snd (send Response transport recipients' batch_size' dry_run' s1) in
       self s2 = self s
       /\ exists sent, calls s2 = calls s1 ++ sent
                       /\ Forall (carries_skeleton (self s)) sent.
Proof.
  assert (Hframe : forall rs n d s0,
            let s' := snd (send Response transport rs n d s0) in
            self s' = self s0
            /\ exists sent, calls s' = calls s0 ++ sent
                            /\ Forall (carries_skeleton (self s0)) sent).
  { intros rs n d s0. unfold send.
    destruct (grouper_real_batches rs n) as (batches & -> & _).
    apply send_loop_frame. }
  intros s1. destruct (Hframe recipients batch_size dry_run s) as [Hself Hsent].
  fold s1 in Hself, Hsent.
  split; [exact Hself|]. split; [exact Hsent|].
  intros rs' n' d' s2.
  destruct (Hframe rs' n' d' s1) as [Hself2 Hsent2]. fold s2 in Hself2, Hsent2.
  rewrite Hself in Hsent2. split; [congruence | exact Hsent2].
Qed.

(** ** Regular expressions *)

Lemma append_nil_l (t : string) : "" +:+ t = t.
Proof. reflexivity. Qed.

Lemma append_cons c (s t : string) : String c s +:+ t = String c (s +:+ t).
Proof. reflexivity. Qed.

Lemma append_eq_nil (a b : string) : a +:+ b = "" -> a = "" /\ b = "".
Proof.
  destruct a; [rewrite append_nil_l; auto | rewrite append_cons; discriminate].
Qed.

Lemma nullable_matches r : nullable r = true <-> matches r "".
Proof.
  split.
  - induction r; simpl; intros H; try discriminate.
    + constructor.
    + apply andb_prop in H as [H1 H2].
      rewrite <- (append_nil_l ""). constructor; auto.
    + apply orb_prop in H as [H|H]; [apply m_alt_l | apply m_alt_r]; auto.
    + constructor.
  - intros H. remember "" as s eqn:Hs.
    induction H; simpl; try reflexivity; try discriminate.
    + apply append_eq_nil in Hs as [-> ->]. rewrite IHmatches1, IHmatches2; auto.
    + rewrite IHmatches; auto.
    + rewrite IHmatches, orb_true_r; auto.
Qed.

Lemma deriv_sound c r : forall s, matches (deriv c r) s -> matches r (String c s).
Proof.
  induction r as [| |p|r1 IH1 r2 IH2|r1 IH1 r2 IH2|r IH]; simpl; intros s H.
  - inversion H.
  - inversion H.
  - destruct (p c) eqn:Hp; inversion H; subst. constructor. exact Hp.
  - assert (Hcat : forall t, matches (Cat (deriv c r1) r2) t ->
                             matches (Cat r1 r2) (String c t)).
    { intros t Ht. inversion Ht; subst.
      rewrite <- append_cons. constructor; auto. }
    destruct (nullable r1) eqn:Hn; [|auto].
    inversion H; subst; [auto|].
    rewrite <- (append_nil_l (String c s)).
    constructor; [apply nullable_matches; exact Hn | auto].
  - inversion H; subst; [apply m_alt_l | apply m_alt_r]; auto.
  - inversion H; subst.
    rewrite <- append_cons. constructor; auto.
Qed.

Lemma deriv_complete c r s0 :
  matches r s0 -> forall s, s0 = String c s -> matches (deriv c r) s.
Proof.
  induction 1 as [|p c' Hp|r1 r2 s1 s2 H1 IH1 H2 IH2|r1 r2 s' H IH|r1 r2 s' H IH
                 |r|r s1 s2 H1 IH1 H2 IH2]; intros s Hs; simpl.
  - discriminate.
  - injection Hs as -> <-. rewrite Hp. constructor.
  - destruct s1 as [|c1 s1].
    + rewrite append_nil_l in Hs.
      apply nullable_matches in H1. rewrite H1. apply m_alt_r. auto.
    + rewrite append_cons in Hs. injection Hs as -> <-.
      assert (matches (Cat (deriv c r1) r2) (s1 +:+ s2))
        by (constructor; auto).
      destruct (nullable r1); [apply m_alt_l|]; assumption.
  - apply m_alt_l. auto.
  - apply m_alt_r. auto.
  - discriminate.
  - destruct s1 as [|c1 s1].
    + rewrite append_nil_l in Hs. apply IH2. exact Hs.
    + rewrite append_cons in Hs. injection Hs as -> <-. constructor; auto.
Qed.

Lemma fullmatch_matches r s : fullmatch r s = true <-> matches r s.
Proof.
  revert r. induction s as [|c s IH]; intros r; simpl.
  - apply nullable_matches.
  - rewrite IH. split; [apply deriv_sound|].
    intros H. eapply deriv_complete; [exact H | reflexivity].
Qed.

(** A prefix of [s] is in the language of [r]. *)
Lemma re_match_prefix r s :
  re_match r s = true <-> exists p q, s = p +:+ q /\ matches r p.
Proof.
  revert r. induction s as [|c s IH]; intros r; simpl.
  - rewrite orb_false_r, nullable_matches. split.
    + intros H. exists "", "". auto.
    + intros (p & q & Hs & Hm). symmetry in Hs.
      apply append_eq_nil in Hs as [-> _]. exact Hm.
  - rewrite orb_true_iff, nullable_matches, IH. split.
    + intros [H|(p & q & -> & Hm)].
      * exists "", (String c s). auto.
      * exists (String c p), q. split; [reflexivity | apply deriv_sound; exact Hm].
    + intros (p & q & Hs & Hm). destruct p as [|c' p]; [left; exact Hm|].
      rewrite append_cons in Hs. injection Hs as <- ->. right. exists p, q.
      split; [reflexivity|]. eapply deriv_complete; [exact Hm | reflexivity].
Qed.

(** A substring of [s] is in the language of [r]. *)
Lemma re_search_substring r s :
  re_search r s = true <-> exists a p q, s = a +:+ p +:+ q /\ matches r p.
Proof.
  induction s as [|c s IH].
  - simpl. rewrite !orb_false_r, nullable_matches. split.
    + intros H. exists "", "", "". auto.
    + intros (a & p & q & Hs & Hm). symmetry in Hs.
      apply append_eq_nil in Hs as [_ Hs].
      apply append_eq_nil in Hs as [-> _]. exact Hm.
  - change (re_search r (String c s))
      with (re_match r (String c s) || re_search r s).
    rewrite orb_true_iff, IH, re_match_prefix. split.
    + intros [(p & q & Hs & Hm)|(a & p & q & -> & Hm)].
      * exists "", p, q. auto.
      * exists (String c a), p, q. auto.
    + intros (a & p & q & Hs & Hm). destruct a as [|c' a].
      * left. exists p, q. auto.
      * rewrite append_cons in Hs. injection Hs as <- ->.
        right. exists a, p, q. auto.
Qed.

Example email_pattern_plain : re_match email_pattern "test@example.com" = true.
Proof. reflexivity. Qed.

Example email_pattern_trailing : re_match email_pattern "a@b.c@@@" = true.
Proof. reflexivity. Qed.

Example email_pattern_leading_at : re_match email_pattern "@x@y.zz" = false.
Proof. reflexivity. Qed.

Example email_pattern_no_dot : re_match email_pattern "a@b" = false.
Proof. reflexivity. Qed.
(** ** The reader *)

Lemma has_duplicate_NoDup names : has_duplicate names = false <-> List.NoDup names.
Proof.
  induction names as [|x rest IH]; simpl.
  - split; [constructor | reflexivity].
  - rewrite orb_false_iff, IH. split.
    + intros [Hx Hr]. constructor; [|exact Hr].
      intros Hin. apply not_true_iff_false in Hx. apply Hx.
      apply existsb_exists. exists x. split; [exact Hin | apply String.eqb_refl].
    + intros Hnd. inversion Hnd as [|? ? Hx Hr]; subst. split; [|exact Hr].
      apply not_true_iff_false. intros He. apply existsb_exists in He.
      destruct He as (y & Hy & Exy). apply String.eqb_eq in Exy. subst y. auto.
Qed.

Lemma Dict_set_fresh {V} k (v : V) d :
  ~ In k (Dict.keys d) -> Dict.set k v d = d ++ [(k, v)].
Proof.
  induction d as [|[k' v'] d IH]; simpl; intros H; [reflexivity|].
  destruct (String.eqb_spec k k') as [->|Hne]; [tauto|].
  rewrite IH by tauto. reflexivity.
Qed.

Lemma Dict_update_fresh {V} (kvs : Dict.t V) : forall d,
  List.NoDup (Dict.keys d ++ Dict.keys kvs) -> Dict.update d kvs = d ++ kvs.
Proof.
  unfold Dict.update.
  induction kvs as [|[k v] kvs IH]; intros d Hnd; simpl.
  - rewrite app_nil_r. reflexivity.
  - simpl in Hnd. rewrite Dict_set_fresh.
    + rewrite IH.
      * rewrite <- app_assoc. reflexivity.
      * unfold Dict.keys in *. rewrite map_app. simpl.
        rewrite <- app_assoc. exact Hnd.
    + apply List.NoDup_remove_2 in Hnd. intros Hin. apply Hnd.
      apply in_or_app. left. exact Hin.
Qed.

Lemma Dict_get_set {V} k (v : V) d : Dict.get k (Dict.set k v d) = Some v.
Proof.
  induction d as [|[k' v'] d IH]; simpl.
  - rewrite String.eqb_refl. reflexivity.
  - destruct (String.eqb_spec k k') as [->|Hne]; simpl.
    + rewrite String.eqb_refl. reflexivity.
    + destruct (String.eqb_spec k k'); [contradiction | exact IH].
Qed.

Lemma Dict_without_set {V} k (v : V) d :
  Dict.without k (Dict.set k v d) = Dict.without k d.
Proof.
  unfold Dict.without.
  induction d as [|[k' v'] d IH]; simpl.
  - rewrite String.eqb_refl. reflexivity.
  - destruct (String.eqb_spec k k') as [->|Hne]; simpl.
    + rewrite String.eqb_refl. reflexivity.
    + destruct (String.eqb_spec k k'); [contradiction|]. simpl.
      rewrite IH. reflexivity.
Qed.

Lemma keys_combine (fields values : list string) :
  length values = length fields -> Dict.keys (combine fields values) = fields.
Proof.
  revert values. induction fields as [|f fields IH]; intros [|v values] H;
    simpl in *; try reflexivity; try discriminate.
  rewrite IH by lia. reflexivity.
Qed.

(** Every declared field of a well-formed row has a value. *)
Lemma Row_getattr_declared fields : forall values field,
  length values = length fields -> In field fields ->
  exists v, Row_getattr fields values field = inr v
            /\ In (field, v) (combine fields values).
Proof.
  induction fields as [|f fields IH]; intros [|v values] field Hlen Hin;
    simpl in *; try contradiction; try discriminate.
  destruct (String.eqb_spec field f) as [->|Hne].
  - exists v. auto.
  - destruct Hin as [E|Hin]; [congruence|].
    destruct (IH values field) as (w & Hw & Hc); [lia | exact Hin |].
    exists w. auto.
Qed.

Lemma Row_getattr_value fields : forall values field v,
  Row_getattr fields values field = inr v -> In (field, v) (combine fields values).
Proof.
  induction fields as [|f fields IH]; intros [|w values] field v H;
    simpl in *; try discriminate.
  destruct (String.eqb_spec field f) as [->|Hne].
  - injection H as ->. left. reflexivity.
  - right. apply IH. exact H.
Qed.

Lemma keys_set_present {V} k (v : V) d :
  forall x, In x (Dict.keys (Dict.set k v d)) <-> x = k \/ In x (Dict.keys d).
Proof.
  intros x. induction d as [|[k' v'] d IH]; simpl.
  - split; [intros [E|[]]; auto | intros [E|[]]; auto].
  - destruct (String.eqb_spec k k') as [->|Hne]; simpl.
    + intuition (subst; auto).
    + rewrite IH. intuition (subst; auto).
Qed.

Lemma existsb_eqb_In x (l : list string) :
  existsb (String.eqb x) l = true <-> In x l.
Proof.
  rewrite existsb_exists. split.
  - intros (y & Hy & E). apply String.eqb_eq in E. subst. exact Hy.
  - intros H. exists x. split; [exact H | apply String.eqb_refl].
Qed.

Lemma namedtuple_inr field_names fields :
  namedtuple field_names = inr fields ->
  fields = field_names /\ List.NoDup field_names.
Proof.
  unfold namedtuple.
  destruct (forallb _ field_names && forallb _ field_names) eqn:Hv;
    simpl; [|discriminate].
  destruct (has_duplicate field_names) eqn:Hd; simpl; [discriminate|].
  intros H. injection H as <-. split; [reflexivity|].
  apply has_duplicate_NoDup. exact Hd.
Qed.

(** What the three statements of the loop body do with a well-formed
    row: a column named self makes the construction fail, otherwise the
    Recipient is built from the email value and the other columns. *)
Lemma row_to_recipient_eq fields values field e :
  List.NoDup fields -> length values = length fields ->
  Row_getattr fields values field = inr e ->
  row_to_recipient fields values field
  = if existsb (String.eqb "self") fields then inl TypeError
    else inr (Recipient_init e (Dict.without "email" (combine fields values))).
Proof.
  intros Hnd Hlen Hget. unfold row_to_recipient, Row_asdict.
  assert (Hup : Dict.update Dict.empty (combine fields values)
                = combine fields values).
  { rewrite Dict_update_fresh; [reflexivity|].
    simpl. rewrite keys_combine by exact Hlen. exact Hnd. }
  rewrite Hup, Hup, Hget. unfold Recipient_call.
  change (Dict.update (combine fields values) [("email", e)])
    with (Dict.set "email" e (combine fields values)).
  rewrite Dict_get_set, Dict_without_set.
  assert (Hself : existsb (String.eqb "self")
                    (Dict.keys (Dict.set "email" e (combine fields values)))
                  = existsb (String.eqb "self") fields).
  { apply eq_true_iff_eq. rewrite !existsb_eqb_In, keys_set_present.
    rewrite keys_combine by exact Hlen. split; [|auto].
    intros [E|H]; [discriminate | exact H]. }
  rewrite Hself. reflexivity.
Qed.

Lemma row_to_recipient_ok fields values field e :
  List.NoDup fields -> length values = length fields ->
  ~ In "self" fields ->
  Row_getattr fields values field = inr e ->
  row_to_recipient fields values field
  = inr (Recipient_init e (Dict.without "email" (combine fields values))).
Proof.
  intros Hnd Hlen Hself Hget.
  rewrite (row_to_recipient_eq _ _ _ e Hnd Hlen Hget).
  destruct (existsb (String.eqb "self") fields) eqn:E; [|reflexivity].
  apply existsb_eqb_In in E. contradiction.
Qed.

Lemma row_to_recipient_inr fields values field r :
  List.NoDup fields -> length values = length fields ->
  row_to_recipient fields values field = inr r ->
  exists e, Row_getattr fields values field = inr e
            /\ r = Recipient_init e (Dict.without "email" (combine fields values)).
Proof.
  intros Hnd Hlen Hr.
  destruct (Row_getattr fields values field) as [err|e] eqn:Hget.
  - unfold row_to_recipient in Hr. rewrite Hget in Hr. discriminate.
  - rewrite (row_to_recipient_eq _ _ _ e Hnd Hlen Hget) in Hr.
    destruct (existsb (String.eqb "self") fields); [discriminate|].
    injection Hr as <-. exists e. auto.
Qed.

Lemma Row_make_inr fields values data :
  Row_make fields values = inr data ->
  data = values /\ length values = length fields.
Proof.
  unfold Row_make. destruct (Nat.eqb_spec (length values) (length fields));
    [|discriminate].
  intros H. injection H as <-. auto.
Qed.

Lemma rows_to_recipients_yield fields field : List.NoDup fields ->
  forall rows i r,
    fst (rows_to_recipients fields field rows) !! i = Some r ->
    exists values e,
      rows !! i = Some values
      /\ length values = length fields
      /\ Row_getattr fields values field = inr e
      /\ r = Recipient_init e (Dict.without "email" (combine fields values)).
Proof.
  intros Hnd. induction rows as [|values rest IH]; intros i r Hr; simpl in Hr.
  - destruct i; discriminate.
  - destruct (Row_make fields values) as [err|data] eqn:Hmk;
      [destruct i; discriminate|].
    apply Row_make_inr in Hmk as [-> Hlen].
    destruct (row_to_recipient fields values field) as [err|r0] eqn:Hrow;
      [destruct i; discriminate|].
    destruct (row_to_recipient_inr _ _ _ _ Hnd Hlen Hrow) as (e & Hget & ->).
    destruct (rows_to_recipients fields field rest) as [rs err] eqn:Hrest.
    simpl in Hr. destruct i as [|i]; simpl in Hr.
    + injection Hr as <-. exists values, e. auto.
    + simpl in IH. apply IH in Hr. exact Hr.
Qed.

Lemma rows_to_recipients_all fields field : List.NoDup fields ->
  In field fields -> ~ In "self" fields ->
  forall rows, Forall (fun values => length values = length fields) rows ->
    snd (rows_to_recipients fields field rows) = None
    /\ length (fst (rows_to_recipients fields field rows)) = length rows.
Proof.
  intros Hnd Hin Hself. induction rows as [|values rest IH]; intros Hall; simpl.
  - auto.
  - inversion Hall as [|? ? Hlen Hrest]; subst.
    unfold Row_make. rewrite Hlen, Nat.eqb_refl.
    destruct (Row_getattr_declared fields values field Hlen Hin) as (e & Hget & _).
    rewrite (row_to_recipient_ok _ _ _ e Hnd Hlen Hself Hget).
    destruct (rows_to_recipients fields field rest) as [rs err].
    simpl in *. destruct (IH Hrest) as [-> ->]. auto.
Qed.

(** With the email field resolved, the generator is the row loop. *)
Lemma csvfile_resolved fields rows email_field field :
  namedtuple fields = inr fields ->
  resolve_email_field fields rows email_field = Some field ->
  csvfile_to_recipients fields rows email_field
  = rows_to_recipients fields field rows.
Proof.
  intros Hnt Hres. unfold csvfile_to_recipients. rewrite Hnt.
  destruct email_field as [f|]; simpl in Hres.
  - injection Hres as ->. reflexivity.
  - destruct rows as [|values rest]; [discriminate|]. simpl.
    destruct (Row_make fields values) as [err|data] eqn:Hmk; [reflexivity|].
    apply Row_make_inr in Hmk as [-> _]. rewrite Hres. reflexivity.
Qed.

Lemma guess_email_field_none fields values : forall to_visit,
  (forall g w, In g to_visit -> Row_getattr fields values g = inr w ->
               re_match email_pattern w = false) ->
  guess_email_field fields values to_visit = None.
Proof.
  induction to_visit as [|g rest IH]; intros H; simpl; [reflexivity|].
  destruct (Row_getattr fields values g) as [err|w] eqn:Hg; [reflexivity|].
  rewrite (H g w) by (simpl; auto).
  apply IH. intros g' w' Hin. apply H. right. exact Hin.
Qed.

Lemma guess_email_field_first fields values field v after : forall before,
  (forall g, In g before ->
     exists w, Row_getattr fields values g = inr w
               /\ re_match email_pattern w = false) ->
  Row_getattr fields values field = inr v ->
  re_match email_pattern v = true ->
  guess_email_field fields values (before ++ field :: after) = Some field.
Proof.
  induction before as [|g before IH]; intros Hb Hv Hm; simpl.
  - rewrite Hv, Hm. reflexivity.
  - destruct (Hb g) as (w & -> & ->); [left; reflexivity|].
    apply IH; [|exact Hv | exact Hm].
    intros g' Hin. apply Hb. right. exact Hin.
Qed.

Lemma not_matches_at_start r v :
  ~ matches_at_start r v <-> re_match r v = false.
Proof.
  unfold matches_at_start. rewrite <- re_match_prefix.
  destruct (re_match r v); split; congruence.
Qed.

(** C2, as stated, fails: a value with an email inside it but not at its
    start is not detected; the scan passes over such a field and, when it
    is the only one, the generator fails. *)
Lemma email_detection_is_anchored :
  matches_inside email_pattern "@x@y.zz"
  /\ spec_guess_email_field ["handle"; "contact"] ["@x@y.zz"; "x@y.zz"]
     = Some "handle"
  /\ resolve_email_field ["handle"; "contact"] [["@x@y.zz"; "x@y.zz"]] None
     = Some "contact"
  /\ map email (fst (csvfile_to_recipients ["handle"; "contact"]
                       [["@x@y.zz"; "x@y.zz"]] None)) = ["x@y.zz"]
  /\ csvfile_to_recipients ["handle"] [["@x@y.zz"]] None
     = ([], Some CouldNotGuessEmailField).
Proof.
  split; [apply re_search_substring; reflexivity|].
  repeat split.
Qed.

(** C2 (amended): with no explicit email field the generator reads the
    first data row and scans its fields in header order for a value that
    the pattern local@domain.tld matches at its start (the pattern is
    anchored at the start of the value, not at its end); the first such
    field is the email field of every row, and when no field of the first
    row matches the generator fails with the could-not-guess error before
    it yields any Recipient. *)
Theorem email_field_detection fields values rest :
  namedtuple fields = inr fields ->
  length values = length fields ->
  (forall before field after v,
     fields = before ++ field :: after ->
     Row_getattr fields values field = inr v ->
     matches_at_start email_pattern v ->
     (forall g w, In g before -> Row_getattr fields values g = inr w ->
                  ~ matches_at_start email_pattern w) ->
     csvfile_to_recipients fields (values :: rest) None
     = csvfile_to_recipients fields (values :: rest) (Some field)
     /\ forall i r,
          fst (csvfile_to_recipients fields (values :: rest) None) !! i = Some r ->
          exists row, (values :: rest) !! i = Some row
                      /\ Row_getattr fields row field = inr (email r))
  /\ ((forall g w, In g fields -> Row_getattr fields values g = inr w ->
                   ~ matches_at_start email_pattern w) ->
      csvfile_to_recipients fields (values :: rest) None
      = ([], Some CouldNotGuessEmailField)).
Proof.
  intros Hnd Hlen. split.
  - intros before field after v Hsplit Hv Hm Hbefore.
    assert (Hres : resolve_email_field fields (values :: rest) None = Some field).
    { simpl. rewrite Hsplit at 2.
      apply (guess_email_field_first fields values field v); [|exact Hv|].
      - intros g Hg.
        destruct (Row_getattr_declared fields values g Hlen) as (w & Hw & _).
        { rewrite Hsplit. apply in_or_app. left. exact Hg. }
        exists w. split; [exact Hw|].
        apply not_matches_at_start. apply (Hbefore g w Hg Hw).
      - apply re_match_prefix. exact Hm. }
    rewrite (csvfile_resolved _ _ None field Hnd Hres).
    rewrite (csvfile_resolved _ _ (Some field) field Hnd eq_refl).
    split; [reflexivity|].
    intros i r Hr.
    apply namedtuple_inr in Hnd as [_ Hnd].
    destruct (rows_to_recipients_yield fields field Hnd _ _ _ Hr)
      as (row & e & Hrow & _ & Hget & ->).
    exists row. auto.
  - intros Hnone. unfold csvfile_to_recipients, Row_make.
    rewrite Hnd, Hlen, Nat.eqb_refl.
    rewrite guess_email_field_none; [reflexivity|].
    intros g w Hg Hw. apply not_matches_at_start. apply (Hnone g w).
    + pose proof (Row_getattr_value _ _ _ _ Hw) as Hin.
      apply in_combine_l in Hin. exact Hin.
    + exact Hw.
Qed.

Lemma email_field_detection_witness :
  (csvfile_to_recipients ["foobar"; "first_name"; "last_name"]
     [["test@example.com"; "test"; "case"]; ["a@b.cd"; "x"; "y"]] None
   = csvfile_to_recipients ["foobar"; "first_name"; "last_name"]
       [["test@example.com"; "test"; "case"]; ["a@b.cd"; "x"; "y"]]
       (Some "foobar")
   /\ forall i r,
        fst (csvfile_to_recipients ["foobar"; "first_name"; "last_name"]
               [["test@example.com"; "test"; "case"]; ["a@b.cd"; "x"; "y"]]
               None) !! i = Some r ->
        exists row,
          [["test@example.com"; "test"; "case"]; ["a@b.cd"; "x"; "y"]] !! i
          = Some row
          /\ Row_getattr ["foobar"; "first_name"; "last_name"] row "foobar"
             = inr (email r))
  /\ csvfile_to_recipients ["a"; "b"] [["no mail"; "@x@y.zz"]; ["c"; "d"]] None
     = ([], Some CouldNotGuessEmailField).
Proof.
  split.
  - apply (proj1 (email_field_detection
                    ["foobar"; "first_name"; "last_name"]
                    ["test@example.com"; "test"; "case"]
                    [["a@b.cd"; "x"; "y"]] eq_refl eq_refl)
             [] "foobar" ["first_name"; "last_name"] "test@example.com").
    + reflexivity.
    + reflexivity.
    + apply re_match_prefix. reflexivity.
    + intros g w [].
  - apply (proj2 (email_field_detection ["a"; "b"] ["no mail"; "@x@y.zz"]
                    [["c"; "d"]] eq_refl eq_refl)).
    intros g w Hg Hw. apply not_matches_at_start.
    destruct Hg as [<-|[<-|[]]]; injection Hw as <-; reflexivity.
Defined.

(** C3, as stated, fails: a column named email is bound to the email
    parameter and gives no merge tag. *)
Lemma csv_email_column_is_no_merge_tag :
  exists r,
    csvfile_to_recipients ["email"; "first_name"; "last_name"]
      [["test@example.com"; "test"; "case"]] (Some "email") = ([r], None)
    /\ email r = "test@example.com"
    /\ merge_vars r = [MergeVar "FIRST_NAME" "test"; MergeVar "LAST_NAME" "case"]
    /\ ~ In (MergeVar (upper "email") "test@example.com") (merge_vars r).
Proof.
  eexists. split; [reflexivity|]. split; [reflexivity|]. split; [reflexivity|].
  simpl. intros [H|[H|[]]]; discriminate.
Qed.

(** C3 (amended): with an accepted header and the email field resolved
    to a header field, the i-th Recipient the generator yields comes from
    the i-th data row, which is well-formed; its email is that row's value
    of the email field, and every column of the row other than a column
    named email is a merge tag of it, with the field name uppercased and
    the row's value as content (the merge tags are exactly those); when
    every row is well-formed and no column is named self, every row yields
    its Recipient. *)
Theorem csv_rows_become_recipients fields rows email_field field :
  namedtuple fields = inr fields ->
  resolve_email_field fields rows email_field = Some field ->
  In field fields ->
  (forall i r,
     fst (csvfile_to_recipients fields rows email_field) !! i = Some r ->
     exists values,
       rows !! i = Some values
       /\ length values = length fields
       /\ Row_getattr fields values field = inr (email r)
       /\ merge_vars r = column_tags fields values
       /\ forall f v, In (f, v) (combine fields values) -> f <> "email" ->
                      In (MergeVar (upper f) v) (merge_vars r))
  /\ (~ In "self" fields ->
      Forall (fun values => length values = length fields) rows ->
      snd (csvfile_to_recipients fields rows email_field) = None
      /\ length (fst (csvfile_to_recipients fields rows email_field))
         = length rows).
Proof.
  intros Hnt Hres Hin. rewrite (csvfile_resolved _ _ _ _ Hnt Hres).
  apply namedtuple_inr in Hnt as [_ Hnd]. split.
  - intros i r Hr.
    destruct (rows_to_recipients_yield fields field Hnd _ _ _ Hr)
      as (values & e & Hrow & Hlen & Hget & ->).
    exists values. repeat split; try assumption.
    intros f v Hfv Hne. simpl.
    apply (in_map (fun kv => MergeVar (upper (fst kv)) (snd kv)) _ (f, v)).
    unfold Dict.without. apply filter_In. split; [exact Hfv|]. cbn [fst].
    destruct (String.eqb_spec "email" f); [congruence | reflexivity].
  - intros Hself Hall. apply rows_to_recipients_all; assumption.
Qed.

Lemma csv_rows_become_recipients_witness :
  (forall i r,
     fst (csvfile_to_recipients ["foobar"; "first_name"; "last_name"]
            [["test@example.com"; "test"; "case"]] None) !! i = Some r ->
     exists values,
       [["test@example.com"; "test"; "case"]] !! i = Some values
       /\ length values = length ["foobar"; "first_name"; "last_name"]
       /\ Row_getattr ["foobar"; "first_name"; "last_name"] values "foobar"
          = inr (email r)
       /\ merge_vars r
          = column_tags ["foobar"; "first_name"; "last_name"] values
       /\ forall f v,
            In (f, v) (combine ["foobar"; "first_name"; "last_name"] values) ->
            f <> "email" -> In (MergeVar (upper f) v) (merge_vars r))
  /\ snd (csvfile_to_recipients ["foobar"; "first_name"; "last_name"]
            [["test@example.com"; "test"; "case"]] None) = None
  /\ length (fst (csvfile_to_recipients ["foobar"; "first_name"; "last_name"]
                    [["test@example.com"; "test"; "case"]] None)) = 1.
Proof.
  destruct (csv_rows_become_recipients
              ["foobar"; "first_name"; "last_name"]
              [["test@example.com"; "test"; "case"]] None "foobar"
              eq_refl eq_refl (or_introl eq_refl)) as [Hyield Hall].
  split; [exact Hyield|].
  apply Hall.
  - intros [E|[E|[E|[]]]]; discriminate.
  - repeat constructor.
Defined.

(** * Further properties *)

(** ** Global merge variables *)

Lemma merge_var_eqb_eq a b : merge_var_eqb a b = true <-> a = b.
Proof.
  unfold merge_var_eqb. rewrite andb_true_iff, !String.eqb_eq.
  destruct a, b; simpl. split; [intros [-> ->]; reflexivity|].
  intros H. injection H as -> ->. auto.
Qed.

Lemma first_true_split before x after pred :
  pred x = true -> (forall y, In y before -> pred y = false) ->
  first_true (before ++ x :: after) PyFalse pred = PyDict x.
Proof.
  intros Hx. induction before as [|y before IH]; intros Hb; simpl.
  - rewrite Hx. reflexivity.
  - rewrite (Hb y) by (left; reflexivity).
    apply IH. intros z Hz. apply Hb. right. exact Hz.
Qed.

Lemma list_remove_split before x after :
  (forall y, In y before -> y <> x) ->
  list_remove (PyDict x) (before ++ x :: after) = Some (before ++ after).
Proof.
  induction before as [|y before IH]; intros Hb; simpl.
  - assert (E : merge_var_eqb x x = true) by (apply merge_var_eqb_eq; reflexivity).
    rewrite E. reflexivity.
  - destruct (merge_var_eqb y x) eqn:E.
    + apply merge_var_eqb_eq in E. exfalso. apply (Hb y); [left; reflexivity | exact E].
    + rewrite IH; [reflexivity|]. intros z Hz. apply Hb. right. exact Hz.
Qed.

(** Where a predicate holds somewhere in a list, it holds at a first
    place. *)
Lemma first_place {X} (P : X -> bool) (l : list X) :
  (exists x, In x l /\ P x = true) ->
  exists before x after,
    l = before ++ x :: after /\ P x = true
    /\ forall y, In y before -> P y = false.
Proof.
  induction l as [|y l IH]; intros (x & Hin & Hx); [destruct Hin|].
  destruct (P y) eqn:Hy.
  - exists [], y, l. split; [reflexivity|]. split; [exact Hy|]. intros z [].
  - destruct IH as (before & x' & after & -> & Hx' & Hb).
    { destruct Hin as [->|Hin]; [congruence|]. exists x. auto. }
    exists (y :: before), x', after. split; [reflexivity|]. split; [exact Hx'|].
    intros z [<-|Hz]; [exact Hy | apply Hb; exact Hz].
Qed.

Lemma remove_global_merge_var_split s before x after var :
  _merge_vars (self s) = before ++ x :: after ->
  mv_name x = upper var ->
  (forall y, In y before -> mv_name y <> upper var) ->
  remove_global_merge_var var s
  = (inr tt, State (set_merge_vars (before ++ after) (self s)) (calls s)).
Proof.
  intros Hl Hx Hb. unfold remove_global_merge_var, bind, get_self, put_self.
  rewrite Hl.
  rewrite first_true_split.
  - rewrite list_remove_split; [reflexivity|].
    intros y Hy E. subst y. apply (Hb x Hy). exact Hx.
  - apply String.eqb_eq. exact Hx.
  - intros y Hy. apply String.eqb_neq. apply Hb. exact Hy.
Qed.

Lemma set_merge_vars_same m : set_merge_vars (_merge_vars m) m = m.
Proof. destruct m; reflexivity. Qed.

Lemma upper_char_idempotent c : upper_char (upper_char c) = upper_char c.
Proof.
  destruct c as [[] [] [] [] [] [] [] []]; reflexivity.
Qed.

Lemma upper_idempotent s : upper (upper s) = upper s.
Proof.
  induction s as [|c s IH]; simpl; [reflexivity|].
  rewrite upper_char_idempotent, IH. reflexivity.
Qed.

(** X1: remove_global_merge_var drops the first entry whose name is the
    uppercased argument, and only that one: the entries before and after
    it stay, in order, and nothing else of the state changes. *)
Theorem remove_global_merge_var_first s before x after var :
  _merge_vars (self s) = before ++ x :: after ->
  mv_name x = upper var ->
  (forall y, In y before -> mv_name y <> upper var) ->
  remove_global_merge_var var s
  = (inr tt, State (set_merge_vars (before ++ after) (self s)) (calls s)).
Proof. apply remove_global_merge_var_split. Qed.

Lemma remove_global_merge_var_first_witness :
  remove_global_merge_var "b"
    (State (mkMail None [] [MergeVar "A" "1"; MergeVar "B" "2"; MergeVar "B" "3"]
                   "" "" "") [])
  = (inr tt,
     State (mkMail None [] [MergeVar "A" "1"; MergeVar "B" "3"] "" "" "") []).
Proof.
  apply (remove_global_merge_var_first
           (State (mkMail None [] [MergeVar "A" "1"; MergeVar "B" "2"; MergeVar "B" "3"]
                          "" "" "") [])
           [MergeVar "A" "1"] (MergeVar "B" "2") [MergeVar "B" "3"] "b").
  - reflexivity.
  - reflexivity.
  - intros y [<-|[]]. discriminate.
Defined.

(** The two ways a removal goes. *)
Lemma remove_global_merge_var_cases s var :
  (exists before x after,
     _merge_vars (self s) = before ++ x :: after
     /\ mv_name x = upper var
     /\ remove_global_merge_var var s
        = (inr tt, State (set_merge_vars (before ++ after) (self s)) (calls s)))
  \/ ((forall x, In x (_merge_vars (self s)) -> mv_name x <> upper var)
      /\ remove_global_merge_var var s = (inl ValueError, s)).
Proof.
  assert (Hcases :
    (exists x, In x (_merge_vars (self s))
               /\ String.eqb (mv_name x) (upper var) = true)
    \/ (forall x, In x (_merge_vars (self s)) -> mv_name x <> upper var)).
  { induction (_merge_vars (self s)) as [|y l IH].
    - right. intros x [].
    - destruct (String.eqb_spec (mv_name y) (upper var)) as [E|Hne].
      + left. exists y. split; [left; reflexivity|].
        apply String.eqb_eq. exact E.
      + destruct IH as [(x & Hx & E)|Hnone].
        * left. exists x. split; [right; exact Hx | exact E].
        * right. intros x [<-|Hx]; [exact Hne | apply Hnone; exact Hx]. }
  destruct Hcases as [Hsome|Hnone].
  - left.
    destruct (first_place (fun y => String.eqb (mv_name y) (upper var)) _ Hsome)
      as (before & x & after & Hl & Hx & Hb).
    apply String.eqb_eq in Hx.
    exists before, x, after. split; [exact Hl|]. split; [exact Hx|].
    apply (remove_global_merge_var_split s before x after var Hl Hx).
    intros y Hy. apply String.eqb_neq. apply Hb. exact Hy.
  - right. split; [exact Hnone|].
    unfold remove_global_merge_var, bind, get_self, raise.
    rewrite first_true_none, list_remove_False; [reflexivity|].
    intros x Hx. apply String.eqb_neq. apply Hnone. exact Hx.
Qed.

(** X2: remove_global_merge_var succeeds exactly when some stored entry
    has the uppercased name, and a successful removal shortens the list by
    one entry. *)
Theorem remove_global_merge_var_succeeds_iff s var :
  (fst (remove_global_merge_var var s) = inr tt
   <-> exists x, In x (_merge_vars (self s)) /\ mv_name x = upper var)
  /\ (fst (remove_global_merge_var var s) = inr tt ->
      S (length (_merge_vars (self (snd (remove_global_merge_var var s)))))
      = length (_merge_vars (self s))).
Proof.
  destruct (remove_global_merge_var_cases s var)
    as [(before & x & after & Hl & Hx & ->)|[Hnone ->]]; simpl.
  - split.
    + split; [|reflexivity]. intros _. exists x. split; [|exact Hx].
      rewrite Hl. apply in_or_app. right. left. reflexivity.
    + intros _. rewrite Hl, !length_app. simpl. lia.
  - split; [|discriminate]. split; [discriminate|].
    intros (x & Hx & E). exfalso. apply (Hnone x Hx E).
Qed.

Lemma remove_global_merge_var_succeeds_iff_witness :
  S (length (_merge_vars (self (snd (remove_global_merge_var "test"
       (State (mkMail None [] [MergeVar "TEST" "value"] "" "" "") []))))))
  = 1.
Proof.
  apply (proj2 (remove_global_merge_var_succeeds_iff
                  (State (mkMail None [] [MergeVar "TEST" "value"] "" "" "") [])
                  "test")).
  reflexivity.
Defined.

(** X3: adding a variable under a name no stored entry has, then removing
    it under any spelling with the same uppercase form, gives back the
    state from before the two calls. *)
Theorem add_remove_global_merge_var s var var' content :
  upper var' = upper var ->
  (forall y, In y (_merge_vars (self s)) -> mv_name y <> upper var) ->
  (add_global_merge_var var content ;;; remove_global_merge_var var') s
  = (inr tt, s).
Proof.
  intros Hup Hfresh. unfold bind at 1.
  unfold add_global_merge_var at 1, bind, get_self, put_self.
  rewrite (remove_global_merge_var_split _ (_merge_vars (self s))
             (MergeVar (upper var) content) [] var').
  - simpl. rewrite app_nil_r. destruct s as [m sent]. simpl.
    destruct m; reflexivity.
  - reflexivity.
  - simpl. symmetry. exact Hup.
  - intros y Hy. rewrite Hup. apply Hfresh. exact Hy.
Qed.

Lemma add_remove_global_merge_var_witness :
  (add_global_merge_var "Another-Test" "v" ;;;
   remove_global_merge_var "ANOTHER-test")
    (State (mkMail (Some "t") [] [MergeVar "TEST" "value"] "s" "e" "n") [])
  = (inr tt,
     State (mkMail (Some "t") [] [MergeVar "TEST" "value"] "s" "e" "n") []).
Proof.
  apply (add_remove_global_merge_var
           (State (mkMail (Some "t") [] [MergeVar "TEST" "value"] "s" "e" "n") [])
           "Another-Test" "ANOTHER-test" "v").
  - reflexivity.
  - intros y [<-|[]]. discriminate.
Defined.

(** X4: the stored names stay uppercased: add_global_merge_var and
    remove_global_merge_var keep the invariant, whether they succeed or
    fail, and under it every stored entry can be removed by its stored
    name. *)
Theorem names_uppercase_kept s :
  names_uppercase (self s) ->
  (forall var content,
     names_uppercase (self (snd (add_global_merge_var var content s))))
  /\ (forall var, names_uppercase (self (snd (remove_global_merge_var var s))))
  /\ (forall x, In x (_merge_vars (self s)) ->
                fst (remove_global_merge_var (mv_name x) s) = inr tt).
Proof.
  unfold names_uppercase. intros Hinv. split; [|split].
  - intros var content. simpl. apply Forall_app. split; [exact Hinv|].
    constructor; [apply upper_idempotent | constructor].
  - intros var.
    destruct (remove_global_merge_var_cases s var)
      as [(before & x & after & Hl & Hx & ->)|[Hnone ->]]; simpl.
    + rewrite Hl in Hinv. apply Forall_app in Hinv as [H1 H2].
      apply Forall_app. split; [exact H1|]. inversion H2; assumption.
    + exact Hinv.
  - intros x Hx.
    destruct (remove_global_merge_var_cases s (mv_name x))
      as [(before & x' & after & Hl & Hx' & ->)|[Hnone ->]]; simpl.
    + reflexivity.
    + exfalso. apply (Hnone x Hx).
      rewrite List.Forall_forall in Hinv. symmetry. apply Hinv. exact Hx.
Qed.

Lemma names_uppercase_kept_witness :
  (forall var content,
     names_uppercase
       (self (snd (add_global_merge_var var content
                     (State (mkMail None [] [MergeVar "TEST" "value"] "" "" "") [])))))
  /\ (forall var,
        names_uppercase
          (self (snd (remove_global_merge_var var
                        (State (mkMail None [] [MergeVar "TEST" "value"] "" "" "") [])))))
  /\ (forall x, In x [MergeVar "TEST" "value"] ->
                fst (remove_global_merge_var (mv_name x)
                       (State (mkMail None [] [MergeVar "TEST" "value"] "" "" "") []))
                = inr tt).
Proof.
  apply (names_uppercase_kept
           (State (mkMail None [] [MergeVar "TEST" "value"] "" "" "") [])).
  repeat constructor.
Defined.

(** ** send with the transport *)

Section DeliverFacts.
Variable Response : Type.
Variable transport : list message -> message -> nat + Response.

Lemma state_eta s : State (self s) (calls s) = s.
Proof. destruct s; reflexivity. Qed.

(** A run of send that is not dry hands the payloads of the batches to
    the transport, in order, and stops at the first failure. *)
Lemma send_loop_deliver batches :
  Forall (fun b => reals b <> []) batches ->
  forall result s,
    send_loop Response transport false batches result s
    = (match snd (deliver Response transport (calls s)
                    (map (batch_message (self s)) batches)) with
       | inl code => inl (TransportError code)
       | inr rs => inr (result ++ rs)
       end,
       State (self s)
             (fst (deliver Response transport (calls s)
                     (map (batch_message (self s)) batches)))).
Proof.
  induction batches as [|batch rest IH]; intros Hall result s.
  - simpl. rewrite app_nil_r, state_eta. reflexivity.
  - inversion Hall as [|? ? Hb Hrest]; subst.
    rewrite send_loop_wet by exact Hb. cbv zeta. simpl map. simpl deliver.
    destruct (transport (calls s) (batch_message (self s) batch)) as [code|r].
    + reflexivity.
    + rewrite (IH Hrest). simpl self. simpl calls.
      destruct (deliver Response transport
                  (calls s ++ [batch_message (self s) batch])
                  (map (batch_message (self s)) rest)) as [log' [code|rs]];
        simpl; [reflexivity|].
      rewrite <- app_assoc. reflexivity.
Qed.

Lemma deliver_all log payloads :
  (forall log' msg, exists r, transport log' msg = inr r) ->
  exists rs,
    deliver Response transport log payloads = (log ++ payloads, inr rs)
    /\ length rs = length payloads.
Proof.
  intros Hok. revert log. induction payloads as [|msg rest IH]; intros log; simpl.
  - exists []. rewrite app_nil_r. auto.
  - destruct (Hok log msg) as (r & ->).
    destruct (IH (log ++ [msg])) as (rs & -> & Hlen).
    exists (r :: rs). rewrite <- app_assoc. simpl. auto.
Qed.

Lemma deliver_failure payloads : forall log code,
  snd (deliver Response transport log payloads) = inl code ->
  exists sent msg,
    fst (deliver Response transport log payloads) = log ++ sent ++ [msg]
    /\ transport (log ++ sent) msg = inl code.
Proof.
  induction payloads as [|msg rest IH]; intros log code H; simpl in *.
  - discriminate.
  - destruct (transport log msg) as [c|r] eqn:Ht; simpl in *.
    + injection H as ->. exists [], msg. rewrite app_nil_r. auto.
    + destruct (deliver Response transport (log ++ [msg]) rest)
        as [log' [c|rs]] eqn:Hd; simpl in *; [|discriminate].
      injection H as ->.
      destruct (IH (log ++ [msg]) code) as (sent & msg' & Hlog & Hfail).
      { rewrite Hd. reflexivity. }
      rewrite Hd in Hlog. simpl in Hlog.
      exists (msg :: sent), msg'. rewrite <- !app_assoc in *. simpl in *. auto.
Qed.

Lemma deliver_prefix payloads : forall log,
  exists k, fst (deliver Response transport log payloads)
            = log ++ take k payloads.
Proof.
  induction payloads as [|msg rest IH]; intros log; simpl.
  - exists 0. rewrite app_nil_r. reflexivity.
  - destruct (transport log msg) as [c|r]; simpl.
    + exists 1. reflexivity.
    + destruct (IH (log ++ [msg])) as (k & Hk).
      destruct (deliver Response transport (log ++ [msg]) rest) as [log' o].
      simpl in *. exists (S k). rewrite Hk, <- app_assoc. reflexivity.
Qed.

Lemma concat_batch_to m (batches : list (list (option Recipient))) :
  concat (map msg_to (map (batch_message m) batches))
  = map to_entry_of (concat (map reals batches)).
Proof.
  induction batches as [|b rest IH]; simpl; [reflexivity|].
  rewrite IH, map_app. reflexivity.
Qed.

Lemma concat_batch_merge_vars m (batches : list (list (option Recipient))) :
  concat (map msg_merge_vars (map (batch_message m) batches))
  = map rcpt_vars_of (concat (map reals batches)).
Proof.
  induction batches as [|b rest IH]; simpl; [reflexivity|].
  rewrite IH, map_app. reflexivity.
Qed.

(** The calls a send adds are payloads of its batches. *)
Lemma send_new_calls (recipients : list Recipient) (n : Z) dry_run s :
  exists batches k,
    grouper recipients n = Some batches
    /\ Forall (fun b => reals b <> []) batches
    /\ calls (snd (send Response transport recipients n dry_run s))
       = calls s ++ take k (map (batch_message (self s)) batches).
Proof.
  destruct (grouper_real_batches recipients n) as (batches & Hg & Hall).
  exists batches. unfold send. rewrite Hg. destruct dry_run.
  - exists 0. rewrite send_loop_dry_run by exact Hall. simpl.
    rewrite app_nil_r. auto.
  - rewrite send_loop_deliver by exact Hall. simpl.
    destruct (deliver_prefix (map (batch_message (self s)) batches) (calls s))
      as (k & Hk).
    exists k. auto.
Qed.
End DeliverFacts.

(** X5: when every transport call succeeds, a send that is not dry, with
    batch size n > 0, makes ceil(L/n) calls and returns as many responses;
    the recipient lists of the payloads, in call order, add up to the
    recipients in input order, each addressed once, and so do the
    per-recipient merge variables. *)
Theorem send_addresses_everyone (Response : Type) transport
    (recipients : list Recipient) (n : Z) (s : state) :
  (0 < n)%Z ->
  (forall log msg, exists r : Response, transport log msg = inr r) ->
  exists result sent,
    send Response transport recipients n false s
    = (inr result, State (self s) (calls s ++ sent))
    /\ length result = ceil_div (length recipients) (Z.to_nat n)
    /\ length sent = ceil_div (length recipients) (Z.to_nat n)
    /\ concat (map msg_to sent) = map to_entry_of recipients
    /\ concat (map msg_merge_vars sent) = map rcpt_vars_of recipients.
Proof.
  intros Hn Hok. assert (Hk : 1 <= Z.to_nat n) by lia.
  destruct (grouper_real_batches recipients n) as (batches & Hg & Hall).
  assert (Hb : batches = chunks (length recipients) (Z.to_nat n) recipients).
  { rewrite grouper_chunks in Hg by exact Hn. congruence. }
  unfold send. rewrite Hg, send_loop_deliver by exact Hall.
  destruct (deliver_all Response transport (calls s)
              (map (batch_message (self s)) batches) Hok) as (rs & -> & Hlen).
  simpl. exists rs, (map (batch_message (self s)) batches).
  rewrite length_map in Hlen.
  split; [reflexivity|].
  rewrite Hlen, length_map, concat_batch_to, concat_batch_merge_vars, Hb.
  rewrite chunks_count, chunks_concat by exact Hk. auto.
Qed.

Lemma send_addresses_everyone_witness :
  exists result sent,
    send nat (fun log _ => inr (length log))
      [Recipient_init "a@x.io" []; Recipient_init "b@x.io" [];
       Recipient_init "c@x.io" []] 2 false
      (State (mkMail (Some "t") [] [] "s" "e" "n") [])
    = (inr result, State (mkMail (Some "t") [] [] "s" "e" "n") ([] ++ sent))
    /\ length result = ceil_div 3 2
    /\ length sent = ceil_div 3 2
    /\ concat (map msg_to sent)
       = map to_entry_of [Recipient_init "a@x.io" []; Recipient_init "b@x.io" [];
                          Recipient_init "c@x.io" []]
    /\ concat (map msg_merge_vars sent)
       = map rcpt_vars_of [Recipient_init "a@x.io" []; Recipient_init "b@x.io" [];
                           Recipient_init "c@x.io" []].
Proof.
  apply (send_addresses_everyone nat (fun log _ => inr (length log))
           [Recipient_init "a@x.io" []; Recipient_init "b@x.io" [];
            Recipient_init "c@x.io" []] 2
           (State (mkMail (Some "t") [] [] "s" "e" "n") [])).
  - lia.
  - intros log msg. exists (length log). reflexivity.
Defined.

(** X6: a send over a list of recipients can fail only through the
    transport: when it fails, the exception is the transport's, the failing
    call is the last call made, and no batch after it is handed over. *)
Theorem send_fails_only_in_transport (Response : Type) transport
    (recipients : list Recipient) (n : Z) (dry_run : bool) (s : state) e :
  fst (send Response transport recipients n dry_run s) = inl e ->
  exists code sent msg,
    e = TransportError code
    /\ dry_run = false
    /\ calls (snd (send Response transport recipients n dry_run s))
       = calls s ++ sent ++ [msg]
    /\ transport (calls s ++ sent) msg = inl code.
Proof.
  destruct (grouper_real_batches recipients n) as (batches & Hg & Hall).
  unfold send. rewrite Hg. destruct dry_run.
  - rewrite send_loop_dry_run by exact Hall. discriminate.
  - rewrite send_loop_deliver by exact Hall. simpl.
    destruct (snd (deliver Response transport (calls s)
                     (map (batch_message (self s)) batches)))
      as [code|rs] eqn:Hd; [|discriminate].
    intros H. injection H as <-.
    destruct (deliver_failure Response transport _ _ _ Hd)
      as (sent & msg & Hlog & Hfail).
    exists code, sent, msg. auto.
Qed.

Lemma send_fails_only_in_transport_witness :
  exists code sent msg,
    TransportError 500 = TransportError code
    /\ false = false
    /\ calls (snd (send unit (fun log _ => if (length log =? 1)%nat
                                          then inl 500 else inr tt)
                     [Recipient_init "a@x.io" []; Recipient_init "b@x.io" [];
                      Recipient_init "c@x.io" []] 1 false
                     (State (mkMail (Some "t") [] [] "s" "e" "n") [])))
       = [] ++ sent ++ [msg]
    /\ (if (length ([] ++ sent) =? 1)%nat then inl 500 else inr tt)
       = @inl nat unit code.
Proof.
  apply (send_fails_only_in_transport unit
           (fun log _ => if (length log =? 1)%nat then inl 500 else inr tt)
           [Recipient_init "a@x.io" []; Recipient_init "b@x.io" [];
            Recipient_init "c@x.io" []] 1 false
           (State (mkMail (Some "t") [] [] "s" "e" "n") [])
           (TransportError 500)).
  reflexivity.
Defined.

(** X7: every payload a send hands to the transport lists at least one
    recipient and at most batch-size many, its merge_vars entries answer
    its to entries one for one (same recipients, same order), and it
    carries the fixed protocol flags. *)
Theorem send_payloads_aligned (Response : Type) transport
    (recipients : list Recipient) (n : Z) (dry_run : bool) (s : state) :
  (0 < n)%Z ->
  exists sent,
    calls (snd (send Response transport recipients n dry_run s)) = calls s ++ sent
    /\ Forall (fun msg =>
                 map to_email (msg_to msg) = map rcpt (msg_merge_vars msg)
                 /\ 1 <= length (msg_to msg) <= Z.to_nat n
                 /\ length (msg_merge_vars msg) = length (msg_to msg)
                 /\ fixed_flags msg) sent.
Proof.
  intros Hn. assert (Hk : 1 <= Z.to_nat n) by lia.
  destruct (send_new_calls Response transport recipients n dry_run s)
    as (batches & k & Hg & Hall & Hcalls).
  exists (take k (map (batch_message (self s)) batches)).
  split; [exact Hcalls|].
  apply Forall_take. rewrite List.Forall_map.
  rewrite grouper_chunks in Hg by exact Hn. injection Hg as <-.
  eapply Forall_impl; [apply (chunks_shape (Z.to_nat n) recipients Hk)|].
  intros b [_ Hlen]. simpl.
  rewrite !map_map, !length_map. simpl.
  repeat split; try reflexivity; lia.
Qed.

Lemma send_payloads_aligned_witness :
  exists sent,
    calls (snd (send nat (fun log _ => inr (length log))
                  [Recipient_init "a@x.io" []; Recipient_init "b@x.io" [];
                   Recipient_init "c@x.io" []] 2 false
                  (State (mkMail (Some "t") [] [] "s" "e" "n") [])))
    = [] ++ sent
    /\ Forall (fun msg =>
                 map to_email (msg_to msg) = map rcpt (msg_merge_vars msg)
                 /\ 1 <= length (msg_to msg) <= Z.to_nat 2
                 /\ length (msg_merge_vars msg) = length (msg_to msg)
                 /\ fixed_flags msg) sent.
Proof.
  apply (send_payloads_aligned nat (fun log _ => inr (length log))
           [Recipient_init "a@x.io" []; Recipient_init "b@x.io" [];
            Recipient_init "c@x.io" []] 2 false
           (State (mkMail (Some "t") [] [] "s" "e" "n") [])).
  lia.
Defined.

(** X8: with a batch size of zero or less, send hands nothing to the
    transport and returns the empty list, dry run or not: the recipients
    are dropped without an error. *)
Theorem send_nonpositive_batch_size (Response : Type) transport
    (recipients : list Recipient) (n : Z) (dry_run : bool) (s : state) :
  (n <= 0)%Z ->
  send Response transport recipients n dry_run s = (inr [], s).
Proof.
  intros Hn. unfold send. rewrite grouper_nonpositive by exact Hn. reflexivity.
Qed.

Lemma send_nonpositive_batch_size_witness :
  send nat (fun log _ => inr (length log))
    [Recipient_init "a@x.io" []; Recipient_init "b@x.io" []] 0 false
    (State (mkMail (Some "t") [] [] "s" "e" "n") [])
  = (inr [], State (mkMail (Some "t") [] [] "s" "e" "n") []).
Proof.
  apply (send_nonpositive_batch_size nat (fun log _ => inr (length log))
           [Recipient_init "a@x.io" []; Recipient_init "b@x.io" []] 0 false
           (State (mkMail (Some "t") [] [] "s" "e" "n") [])).
  lia.
Defined.

(** ** The reader: rows that fail, and the name columns *)

Lemma rows_to_recipients_app fields field good : forall rows,
  snd (rows_to_recipients fields field good) = None ->
  rows_to_recipients fields field (good ++ rows)
  = (fst (rows_to_recipients fields field good)
       ++ fst (rows_to_recipients fields field rows),
     snd (rows_to_recipients fields field rows)).
Proof.
  induction good as [|values good IH]; intros rows Hok; simpl in *.
  - destruct (rows_to_recipients fields field rows); reflexivity.
  - destruct (Row_make fields values) as [e|data]; [discriminate|].
    destruct (row_to_recipient fields data field) as [e|r]; [discriminate|].
    destruct (rows_to_recipients fields field good) as [rs e] eqn:Hg.
    simpl in *. rewrite (IH rows Hok). reflexivity.
Qed.

Lemma Dict_get_without {V} k k' (d : Dict.t V) :
  k <> k' -> Dict.get k (Dict.without k' d) = Dict.get k d.
Proof.
  intros Hne. unfold Dict.without.
  induction d as [|[k0 v] d IH]; simpl; [reflexivity|].
  destruct (String.eqb_spec k' k0) as [->|Hk']; simpl.
  - destruct (String.eqb_spec k k0); [contradiction | exact IH].
  - destruct (String.eqb_spec k k0); [reflexivity | exact IH].
Qed.

Lemma Dict_get_combine fields : forall values field,
  Dict.get field (combine fields values) = column fields values field.
Proof.
  unfold column.
  induction fields as [|f fields IH]; intros [|v values] field; simpl;
    try reflexivity.
  destruct (String.eqb field f); [reflexivity | apply IH].
Qed.

(** A header with a column named self lets no row through. *)
Lemma row_to_recipient_self fields values field :
  List.NoDup fields -> length values = length fields -> In "self" fields ->
  exists e, row_to_recipient fields values field = inl e.
Proof.
  intros Hnd Hlen Hself.
  destruct (Row_getattr fields values field) as [err|e] eqn:Hget.
  - exists err. unfold row_to_recipient. rewrite Hget. reflexivity.
  - exists TypeError. rewrite (row_to_recipient_eq _ _ _ e Hnd Hlen Hget).
    apply existsb_eqb_In in Hself. rewrite Hself. reflexivity.
Qed.

(** X9: a row whose number of values differs from the number of header
    fields ends the generator with a TypeError: with every row before it
    well-formed, exactly those rows have been yielded as Recipients, and no
    row after it is looked at. *)
Theorem csv_malformed_row_stops fields good bad rest email_field field :
  namedtuple fields = inr fields ->
  resolve_email_field fields (good ++ bad :: rest) email_field = Some field ->
  In field fields ->
  ~ In "self" fields ->
  Forall (fun values => length values = length fields) good ->
  length bad <> length fields ->
  csvfile_to_recipients fields (good ++ bad :: rest) email_field
  = (fst (rows_to_recipients fields field good), Some TypeError)
  /\ length (fst (rows_to_recipients fields field good)) = length good.
Proof.
  intros Hnt Hres Hin Hself Hgood Hbad.
  rewrite (csvfile_resolved _ _ _ _ Hnt Hres).
  apply namedtuple_inr in Hnt as [_ Hnd].
  destruct (rows_to_recipients_all fields field Hnd Hin Hself good Hgood)
    as [Hnone Hlen].
  rewrite (rows_to_recipients_app _ _ _ _ Hnone). simpl.
  unfold Row_make. destruct (Nat.eqb_spec (length bad) (length fields));
    [contradiction|].
  simpl. rewrite app_nil_r. auto.
Qed.

Lemma csv_malformed_row_stops_witness :
  csvfile_to_recipients ["email"; "first_name"]
    ([["a@x.io"; "ann"]] ++ ["b@x.io"] :: [["c@x.io"; "cy"]]) None
  = (fst (rows_to_recipients ["email"; "first_name"] "email" [["a@x.io"; "ann"]]),
     Some TypeError)
  /\ length (fst (rows_to_recipients ["email"; "first_name"] "email"
                    [["a@x.io"; "ann"]])) = length [["a@x.io"; "ann"]].
Proof.
  apply (csv_malformed_row_stops ["email"; "first_name"]
           [["a@x.io"; "ann"]] ["b@x.io"] [["c@x.io"; "cy"]] None "email").
  - reflexivity.
  - reflexivity.
  - left. reflexivity.
  - intros [E|[E|[]]]; discriminate.
  - repeat constructor.
  - simpl. lia.
Defined.

(** X10: with a header column named self, the generator yields no
    Recipient at all, and on any input with a data row it ends in an
    exception (the column collides with the receiver of the
    constructor). *)
Theorem csv_self_column_yields_nothing fields rows email_field :
  namedtuple fields = inr fields ->
  In "self" fields ->
  fst (csvfile_to_recipients fields rows email_field) = []
  /\ (rows <> [] ->
      exists e, snd (csvfile_to_recipients fields rows email_field) = Some e).
Proof.
  intros Hnt Hself. unfold csvfile_to_recipients. rewrite Hnt.
  apply namedtuple_inr in Hnt as [_ Hnd].
  assert (Hrows : forall field,
            fst (rows_to_recipients fields field rows) = []
            /\ (rows <> [] ->
                exists e, snd (rows_to_recipients fields field rows) = Some e)).
  { intros field. destruct rows as [|values rest]; simpl; [split; congruence|].
    destruct (Row_make fields values) as [e|data] eqn:Hmk; simpl; [eauto|].
    apply Row_make_inr in Hmk as [-> Hlen].
    destruct (row_to_recipient_self fields values field Hnd Hlen Hself)
      as (e & ->).
    simpl. eauto. }
  destruct email_field as [field|]; [apply Hrows|].
  destruct rows as [|values rest]; simpl; [split; congruence|].
  destruct (Row_make fields values) as [e|data] eqn:Hmk; simpl; [eauto|].
  apply Row_make_inr in Hmk as [-> Hlen].
  destruct (guess_email_field fields values fields) as [field|]; simpl; [|eauto].
  destruct (row_to_recipient_self fields values field Hnd Hlen Hself) as (e & ->).
  simpl. eauto.
Qed.

Lemma csv_self_column_yields_nothing_witness :
  fst (csvfile_to_recipients ["email"; "self"] [["a@x.io"; "me"]] None) = []
  /\ ([["a@x.io"; "me"]] <> [] ->
      exists e,
        snd (csvfile_to_recipients ["email"; "self"] [["a@x.io"; "me"]] None)
        = Some e).
Proof.
  apply (csv_self_column_yields_nothing ["email"; "self"] [["a@x.io"; "me"]] None).
  - reflexivity.
  - right. left. reflexivity.
Defined.

(** X11: the first_name and last_name of a yielded Recipient are the row's
    values in the columns of those names (absent when the header has no
    such column), and its display name is the name the derivation gives
    for the row's columns name, first_name and last_name; the email
    override plays no part in them. *)
Theorem csv_name_columns fields rows email_field field i r :
  namedtuple fields = inr fields ->
  resolve_email_field fields rows email_field = Some field ->
  fst (csvfile_to_recipients fields rows email_field) !! i = Some r ->
  exists values,
    rows !! i = Some values
    /\ first_name r = column fields values "first_name"
    /\ last_name r = column fields values "last_name"
    /\ name r = name_law supplied_nonempty (combine fields values).
Proof.
  intros Hnt Hres Hr. rewrite (csvfile_resolved _ _ _ _ Hnt Hres) in Hr.
  apply namedtuple_inr in Hnt as [_ Hnd].
  destruct (rows_to_recipients_yield fields field Hnd _ _ _ Hr)
    as (values & e & Hrow & Hlen & Hget & ->).
  exists values. split; [exact Hrow|].
  unfold Recipient_init, name_law, Recipient_name. cbn [first_name last_name name].
  rewrite !Dict_get_without by discriminate.
  rewrite !Dict_get_combine.
  split; [reflexivity|]. split; [reflexivity|].
  destruct (column fields values "name") as [nm|]; [reflexivity|].
  destruct (column fields values "first_name") as [f|]; simpl; [|reflexivity].
  destruct (str_truthy f); simpl; [|reflexivity].
  destruct (column fields values "last_name") as [l|]; simpl; [|reflexivity].
  destruct (str_truthy l); reflexivity.
Qed.

Lemma csv_name_columns_witness :
  exists values,
    [["test@example.com"; "test"; "case"]] !! 0 = Some values
    /\ first_name (Recipient_init "test@example.com"
                     [("first_name", "test"); ("last_name", "case")])
       = column ["email"; "first_name"; "last_name"] values "first_name"
    /\ last_name (Recipient_init "test@example.com"
                    [("first_name", "test"); ("last_name", "case")])
       = column ["email"; "first_name"; "last_name"] values "last_name"
    /\ name (Recipient_init "test@example.com"
               [("first_name", "test"); ("last_name", "case")])
       = name_law supplied_nonempty
           (combine ["email"; "first_name"; "last_name"] values).
Proof.
  apply (csv_name_columns ["email"; "first_name"; "last_name"]
           [["test@example.com"; "test"; "case"]] (Some "email") "email" 0
           (Recipient_init "test@example.com"
              [("first_name", "test"); ("last_name", "case")]));
    reflexivity.
Defined.

(** X12: a header in which a column name occurs twice is rejected with a
    ValueError before any row is read, whatever the rows and the email
    field. *)
Theorem csv_repeated_column_rejected before f between after rows email_field :
  csvfile_to_recipients (before ++ f :: between ++ f :: after) rows email_field
  = ([], Some ValueError).
Proof.
  unfold csvfile_to_recipients, namedtuple.
  assert (Hd : has_duplicate (before ++ f :: between ++ f :: after) = true).
  { apply not_false_iff_true. intros Hf. apply has_duplicate_NoDup in Hf.
    apply List.NoDup_remove_2 in Hf. apply Hf.
    apply in_or_app. right. apply in_or_app. right. left. reflexivity. }
  rewrite Hd, andb_false_r. reflexivity.
Qed.

(** ** Images *)

Lemma contains_char_basename p : contains_char "/" (basename p) = false.
Proof.
  induction p as [|c p IH]; simpl; [reflexivity|].
  destruct (contains_char "/" p) eqn:Hp; [exact IH|].
  destruct (Ascii.eqb_spec c "/") as [->|Hne]; [exact Hp|].
  change (contains_char "/" (String c p))
    with (Ascii.eqb "/" c || contains_char "/" p).
  rewrite Hp, orb_false_r.
  destruct (Ascii.eqb_spec "/" c); [congruence | reflexivity].
Qed.

Lemma split_last_dot_append p root ext :
  split_last_dot p = Some (root, ext) -> p = root +:+ ext.
Proof.
  revert root ext. induction p as [|c p IH]; intros root ext H; simpl in H.
  - discriminate.
  - destruct (split_last_dot p) as [[root' ext']|].
    + injection H as <- <-. rewrite append_cons, <- (IH root' ext' eq_refl).
      reflexivity.
    + destruct (Ascii.eqb c "."); [|discriminate].
      injection H as <- <-. reflexivity.
Qed.

Lemma contains_char_append c a b :
  contains_char c (a +:+ b) = contains_char c a || contains_char c b.
Proof.
  induction a as [|x a IH]; [reflexivity|].
  rewrite append_cons.
  change (contains_char c (String x (a +:+ b)))
    with (Ascii.eqb c x || contains_char c (a +:+ b)).
  change (contains_char c (String x a))
    with (Ascii.eqb c x || contains_char c a).
  rewrite IH, orb_assoc. reflexivity.
Qed.

Lemma splitext_root_prefix p : exists ext, p = splitext_root p +:+ ext.
Proof.
  unfold splitext_root.
  destruct (split_last_dot p) as [[root ext]|] eqn:Hs.
  - destruct (all_chars (Ascii.eqb ".") root).
    + exists "". induction p as [|c p IH]; [reflexivity|].
      clear. induction (String c p) as [|x s IHs]; [reflexivity|].
      rewrite append_cons, <- IHs. reflexivity.
    + exists ext. apply split_last_dot_append. exact Hs.
  - exists "". clear. induction p as [|x s IHs]; [reflexivity|].
    rewrite append_cons, <- IHs. reflexivity.
Qed.

Lemma Dict_set_set {V} k (v1 v2 : V) d :
  Dict.set k v2 (Dict.set k v1 d) = Dict.set k v2 d.
Proof.
  induction d as [|[k' v'] d IH]; simpl.
  - rewrite String.eqb_refl. reflexivity.
  - destruct (String.eqb_spec k k') as [->|Hne]; simpl.
    + rewrite String.eqb_refl. reflexivity.
    + destruct (String.eqb_spec k k'); [contradiction|]. rewrite IH. reflexivity.
Qed.

Lemma Dict_get_set_other {V} k k' (v : V) d :
  k' <> k -> Dict.get k' (Dict.set k v d) = Dict.get k' d.
Proof.
  intros Hne. induction d as [|[k0 v0] d IH]; simpl.
  - destruct (String.eqb_spec k' k); [contradiction | reflexivity].
  - destruct (String.eqb_spec k k0) as [->|Hk]; simpl.
    + destruct (String.eqb_spec k' k0); [contradiction | reflexivity].
    + destruct (String.eqb_spec k' k0); [reflexivity | exact IH].
Qed.

Lemma Dict_keys_set_present {V} k (v : V) d :
  In k (Dict.keys d) -> Dict.keys (Dict.set k v d) = Dict.keys d.
Proof.
  induction d as [|[k' v'] d IH]; simpl; intros H; [destruct H|].
  destruct (String.eqb_spec k k') as [->|Hne]; simpl; [reflexivity|].
  rewrite IH; [reflexivity|]. destruct H as [E|H]; [congruence | exact H].
Qed.

Lemma Dict_del_appended {V} k (v : V) d :
  ~ In k (Dict.keys d) -> Dict.del k (d ++ [(k, v)]) = Some d.
Proof.
  induction d as [|[k' v'] d IH]; simpl; intros H.
  - rewrite String.eqb_refl. reflexivity.
  - destruct (String.eqb_spec k k') as [->|Hne]; [tauto|].
    rewrite IH by tauto. reflexivity.
Qed.

(** What a removal from a dictionary does. *)
Lemma Dict_del_Some {V} k (d : Dict.t V) :
  List.NoDup (Dict.keys d) -> In k (Dict.keys d) ->
  exists d',
    Dict.del k d = Some d'
    /\ Dict.get k d' = None
    /\ (forall k', k' <> k -> Dict.get k' d' = Dict.get k' d)
    /\ Dict.keys d' = List.filter (fun k' => negb (String.eqb k k')) (Dict.keys d)
    /\ S (length d') = length d
    /\ (forall kv, In kv d' -> In kv d).
Proof.
  induction d as [|[k0 v0] d IH]; simpl; intros Hnd Hin; [destruct Hin|].
  inversion Hnd as [|? ? Hk0 Hnd']; subst.
  destruct (String.eqb_spec k k0) as [->|Hne].
  - exists d. split; [reflexivity|]. split.
    { apply Dict_get_None_keys. exact Hk0. }
    split.
    { intros k' Hk'. destruct (String.eqb_spec k' k0); [contradiction | reflexivity]. }
    split.
    { simpl. symmetry. apply List.forallb_filter_id. apply forallb_forall.
      intros x Hx. destruct (String.eqb_spec k0 x); [subst; contradiction | reflexivity]. }
    split; [reflexivity | intros kv H; right; exact H].
  - destruct IH as (d' & Hdel & Hget & Hother & Hkeys & Hlen & Hsub);
      [exact Hnd' | destruct Hin as [E|H]; [congruence | exact H] |].
    exists ((k0, v0) :: d'). rewrite Hdel. simpl.
    split; [reflexivity|]. split.
    { destruct (String.eqb_spec k k0); [contradiction | exact Hget]. }
    split.
    { intros k' Hk'. destruct (String.eqb k' k0); [reflexivity | apply Hother; exact Hk']. }
    split.
    { rewrite Hkeys. reflexivity. }
    split; [lia|]. intros kv [<-|H]; [left; reflexivity | right; apply Hsub; exact H].
Qed.

Section ImageFacts.
Variable guess_type : string -> option string.
Variable b64encode : string -> string.
Variable open_rb : string -> oserror + string.

Lemma add_image_ok filename file mimetype s s' :
  add_image guess_type b64encode open_rb filename file mimetype s = (inr tt, s') ->
  exists img,
    img_name img = image_name filename
    /\ s' = State (set_images (Dict.set (image_name filename) img (_images (self s)))
                              (self s)) (calls s).
Proof.
  unfold add_image.
  destruct (match file with None => open_rb filename | Some c => inr c end)
    as [e|content]; intros H; [discriminate|].
  injection H as <-. eexists. split; [|reflexivity]. reflexivity.
Qed.
End ImageFacts.

(** X13: the key under which add_image stores an image never contains a
    slash and is the start of the file's base name (the base name less its
    extension and nothing else). *)
Theorem image_name_is_a_stem filename :
  contains_char "/" (image_name filename) = false
  /\ exists ext, basename filename = image_name filename +:+ ext.
Proof.
  unfold image_name.
  destruct (splitext_root_prefix (basename filename)) as (ext & Hext).
  split; [|exists ext; exact Hext].
  pose proof (contains_char_basename filename) as Hb.
  rewrite Hext, contains_char_append in Hb.
  apply orb_false_elim in Hb as [Hb _]. exact Hb.
Qed.

Example image_name_examples :
  image_name "path/to/logo.png" = "logo"
  /\ image_name "image1" = "image1"
  /\ image_name "a.tar.gz" = "a.tar"
  /\ image_name ".hidden" = ".hidden".
Proof. repeat split. Qed.

(** X14: a successful add_image stores the image under the key derived
    from the file name: the entry found there afterwards is named by the
    key, every other key keeps its entry, a key that was there keeps its
    place and the number of images, a new key goes to the end; nothing else
    of the state changes. *)
Theorem add_image_stores guess_type b64encode open_rb filename file mimetype s s' :
  add_image guess_type b64encode open_rb filename file mimetype s = (inr tt, s') ->
  (exists img, Dict.get (image_name filename) (_images (self s')) = Some img
               /\ img_name img = image_name filename)
  /\ (forall k, k <> image_name filename ->
                Dict.get k (_images (self s')) = Dict.get k (_images (self s)))
  /\ (In (image_name filename) (Dict.keys (_images (self s))) ->
      Dict.keys (_images (self s')) = Dict.keys (_images (self s)))
  /\ (~ In (image_name filename) (Dict.keys (_images (self s))) ->
      Dict.keys (_images (self s'))
      = Dict.keys (_images (self s)) ++ [image_name filename])
  /\ _merge_vars (self s') = _merge_vars (self s)
  /\ _template (self s') = _template (self s)
  /\ calls s' = calls s.
Proof.
  intros H. apply add_image_ok in H as (img & Himg & ->). simpl.
  split; [exists img; split; [apply Dict_get_set | exact Himg]|].
  split; [intros k Hk; apply Dict_get_set_other; exact Hk|].
  split; [apply Dict_keys_set_present|].
  split; [|auto].
  intros Hnew. rewrite Dict_set_fresh by exact Hnew.
  unfold Dict.keys. rewrite map_app. reflexivity.
Qed.

Lemma add_image_stores_witness :
  (exists img,
     Dict.get (image_name "img/logo.png")
       (_images (self (State (mkMail None [("logo", Image "AAAA" (Some "image/png") "logo")]
                                     [] "" "" "") [])))
     = Some img /\ img_name img = image_name "img/logo.png")
  /\ (forall k, k <> image_name "img/logo.png" ->
        Dict.get k [("logo", Image "AAAA" (Some "image/png") "logo")]
        = Dict.get k (@Dict.empty image)).
Proof.
  destruct (add_image_stores (fun _ => Some "image/png") (fun _ => "AAAA")
              (fun _ => inl (OSError 2)) "img/logo.png" (Some "bytes") None
              (State (mkMail None [] [] "" "" "") [])
              (State (mkMail None [("logo", Image "AAAA" (Some "image/png") "logo")]
                             [] "" "" "") [])
              eq_refl) as (H1 & H2 & _).
  split; [exact H1 | exact H2].
Defined.

(** X15: a later add_image whose file name gives the same key replaces the
    earlier image altogether: the state is the one the later call alone
    would have produced. *)
Theorem add_image_overrides guess_type b64encode open_rb
    f1 file1 mt1 f2 file2 mt2 s s1 s2 :
  image_name f1 = image_name f2 ->
  add_image guess_type b64encode open_rb f1 file1 mt1 s = (inr tt, s1) ->
  add_image guess_type b64encode open_rb f2 file2 mt2 s = (inr tt, s2) ->
  add_image guess_type b64encode open_rb f2 file2 mt2 s1 = (inr tt, s2).
Proof.
  intros Hkey H1 H2. apply add_image_ok in H1 as (img1 & _ & ->).
  unfold add_image in *.
  destruct (match file2 with None => open_rb f2 | Some c => inr c end)
    as [e|content]; [discriminate|].
  injection H2 as <-. simpl. rewrite Hkey, Dict_set_set. reflexivity.
Qed.

Lemma add_image_overrides_witness :
  add_image (fun _ => None) (fun c => c) (fun _ => inl (OSError 2))
    "new/logo.jpg" (Some "BBBB") (Some "image/jpeg")
    (State (mkMail None [("logo", Image "AAAA" (Some "image/png") "logo")]
                   [] "" "" "") [])
  = (inr tt,
     State (mkMail None [("logo", Image "BBBB" (Some "image/jpeg") "logo")]
                   [] "" "" "") []).
Proof.
  apply (add_image_overrides (fun _ => None) (fun c => c)
           (fun _ => inl (OSError 2))
           "old/logo.png" (Some "AAAA") (Some "image/png")
           "new/logo.jpg" (Some "BBBB") (Some "image/jpeg")
           (State (mkMail None [] [] "" "" "") [])); reflexivity.
Defined.

(** X16: adding an image under a key the map does not have, then removing
    that key, gives back the state from before the two calls; removing by
    the file name instead raises KeyError whenever the file name is not its
    own key (it has a directory or an extension) and is no key of the
    map. *)
Theorem add_then_remove_image guess_type b64encode open_rb filename file mimetype s s' :
  ~ In (image_name filename) (Dict.keys (_images (self s))) ->
  add_image guess_type b64encode open_rb filename file mimetype s = (inr tt, s') ->
  remove_image (image_name filename) s' = (inr tt, s)
  /\ (filename <> image_name filename ->
      ~ In filename (Dict.keys (_images (self s))) ->
      remove_image filename s' = (inl KeyError, s')).
Proof.
  intros Hnew H. apply add_image_ok in H as (img & _ & ->). split.
  - unfold remove_image, bind, get_self, put_self. simpl.
    rewrite Dict_set_fresh by exact Hnew.
    rewrite Dict_del_appended by exact Hnew. simpl.
    destruct s as [m sent]. destruct m. reflexivity.
  - intros Hne Habsent.
    unfold remove_image, bind, get_self, raise. simpl.
    rewrite Dict_del_None; [reflexivity|].
    rewrite Dict_set_fresh by exact Hnew.
    unfold Dict.keys in *. rewrite map_app. simpl.
    intros Hin. apply in_app_or in Hin as [Hin|[E|[]]]; [tauto | congruence].
Qed.

Lemma add_then_remove_image_witness :
  remove_image (image_name "img/logo.png")
    (State (mkMail None [("logo", Image "AAAA" (Some "image/png") "logo")]
                   [] "" "" "") [])
  = (inr tt, State (mkMail None [] [] "" "" "") [])
  /\ remove_image "img/logo.png"
       (State (mkMail None [("logo", Image "AAAA" (Some "image/png") "logo")]
                      [] "" "" "") [])
     = (inl KeyError,
        State (mkMail None [("logo", Image "AAAA" (Some "image/png") "logo")]
                      [] "" "" "") []).
Proof.
  destruct (add_then_remove_image (fun _ => Some "image/png") (fun _ => "AAAA")
              (fun _ => inl (OSError 2)) "img/logo.png" (Some "bytes") None
              (State (mkMail None [] [] "" "" "") [])
              (State (mkMail None [("logo", Image "AAAA" (Some "image/png") "logo")]
                             [] "" "" "") [])
              (fun H => H) eq_refl) as [Hkey Hname].
  split; [exact Hkey|].
  apply Hname; [discriminate | intros []].
Defined.

(** X17: removing a key the images map holds succeeds: afterwards the key
    is gone, every other key keeps its entry and its place, there is one
    image less, and nothing else of the state changes. *)
Theorem remove_image_present s key :
  List.NoDup (Dict.keys (_images (self s))) ->
  In key (Dict.keys (_images (self s))) ->
  exists d',
    remove_image key s = (inr tt, State (set_images d' (self s)) (calls s))
    /\ Dict.get key d' = None
    /\ (forall k, k <> key -> Dict.get k d' = Dict.get k (_images (self s)))
    /\ Dict.keys d'
       = List.filter (fun k => negb (String.eqb key k)) (Dict.keys (_images (self s)))
    /\ S (length d') = length (_images (self s)).
Proof.
  intros Hnd Hin.
  destruct (Dict_del_Some key (_images (self s)) Hnd Hin)
    as (d' & Hdel & Hget & Hother & Hkeys & Hlen & _).
  exists d'. unfold remove_image, bind, get_self, put_self. rewrite Hdel.
  auto.
Qed.

Lemma remove_image_present_witness :
  exists d',
    remove_image "image2"
      (State (mkMail None [("image1", Image "/9j/" (Some "image/jpeg") "image1");
                           ("image2", Image "/9j/" (Some "image/jpeg") "image2")]
                     [] "" "" "") [])
    = (inr tt, State (mkMail None d' [] "" "" "") [])
    /\ Dict.get "image2" d' = None
    /\ (forall k, k <> "image2" ->
          Dict.get k d'
          = Dict.get k [("image1", Image "/9j/" (Some "image/jpeg") "image1");
                        ("image2", Image "/9j/" (Some "image/jpeg") "image2")])
    /\ Dict.keys d'
       = List.filter (fun k => negb (String.eqb "image2" k)) ["image1"; "image2"]
    /\ S (length d') = 2.
Proof.
  apply (remove_image_present
           (State (mkMail None [("image1", Image "/9j/" (Some "image/jpeg") "image1");
                                ("image2", Image "/9j/" (Some "image/jpeg") "image2")]
                          [] "" "" "") []) "image2").
  - repeat constructor; simpl; intros H; repeat (destruct H as [H|H]; try discriminate); exact H.
  - right. left. reflexivity.
Defined.

Lemma Dict_set_Forall {V} (P : string * V -> Prop) k v d :
  Forall P d -> P (k, v) -> Forall P (Dict.set k v d).
Proof.
  intros Hd Hkv. induction d as [|[k' v'] d IH]; simpl.
  - constructor; [exact Hkv | constructor].
  - inversion Hd as [|? ? Hh Ht]; subst.
    destruct (String.eqb_spec k k') as [->|Hne].
    + constructor; assumption.
    + constructor; [exact Hh | apply IH; exact Ht].
Qed.

Lemma Dict_set_NoDup {V} k (v : V) d :
  List.NoDup (Dict.keys d) -> List.NoDup (Dict.keys (Dict.set k v d)).
Proof.
  intros Hnd. destruct (in_dec string_dec k (Dict.keys d)) as [Hin|Hnew].
  - rewrite Dict_keys_set_present by exact Hin. exact Hnd.
  - rewrite Dict_set_fresh by exact Hnew.
    unfold Dict.keys in *. rewrite map_app. simpl.
    apply List.NoDup_app; [exact Hnd | repeat constructor; intros [] |].
    intros x Hx [<-|[]]. exact (Hnew Hx).
Qed.

(** X18: the images map stays a dictionary whose entries are named by
    their keys: add_image and remove_image keep this, whether they succeed
    or fail, and under it the images of every payload have pairwise
    different names. *)
Theorem images_wf_kept guess_type b64encode open_rb s :
  images_wf (self s) ->
  (forall filename file mimetype,
     images_wf (self (snd (add_image guess_type b64encode open_rb
                             filename file mimetype s))))
  /\ (forall key, images_wf (self (snd (remove_image key s))))
  /\ (forall batch,
        List.NoDup (map img_name (msg_images (batch_message (self s) batch)))).
Proof.
  unfold images_wf. intros [Hnd Hnamed]. split; [|split].
  - intros filename file mimetype. unfold add_image.
    destruct (match file with None => open_rb filename | Some c => inr c end)
      as [e|content]; simpl; [auto|].
    split; [apply Dict_set_NoDup; exact Hnd|].
    apply Dict_set_Forall; [exact Hnamed | reflexivity].
  - intros key. unfold remove_image, bind, get_self, put_self, raise.
    destruct (in_dec string_dec key (Dict.keys (_images (self s)))) as [Hin|Hout].
    + destruct (Dict_del_Some key (_images (self s)) Hnd Hin)
        as (d' & -> & _ & _ & Hkeys & _ & Hsub).
      simpl. split.
      * rewrite Hkeys. apply List.NoDup_filter. exact Hnd.
      * rewrite List.Forall_forall in *. intros kv Hkv.
        apply Hnamed. apply Hsub. exact Hkv.
    + rewrite Dict_del_None by exact Hout. simpl. auto.
  - intros batch. simpl. unfold Dict.values. rewrite map_map.
    assert (E : map (fun x => img_name (snd x)) (_images (self s))
                = Dict.keys (_images (self s))).
    { unfold Dict.keys. apply map_ext_in. intros kv Hkv.
      rewrite List.Forall_forall in Hnamed. apply Hnamed. exact Hkv. }
    rewrite E. exact Hnd.
Qed.

Lemma images_wf_kept_witness :
  (forall filename file mimetype,
     images_wf (self (snd (add_image (fun _ => None) (fun c => c)
                             (fun _ => inl (OSError 2)) filename file mimetype
                             (State (mkMail None [] [] "" "" "") [])))))
  /\ (forall key,
        images_wf (self (snd (remove_image key
                                (State (mkMail None [] [] "" "" "") [])))))
  /\ (forall batch,
        List.NoDup (map img_name
                      (msg_images (batch_message (mkMail None [] [] "" "" "") batch)))).
Proof.
  apply (images_wf_kept (fun _ => None) (fun c => c) (fun _ => inl (OSError 2))
           (State (mkMail None [] [] "" "" "") [])).
  split; constructor.
Defined.

(** ** The header line *)

Lemma all_chars_append p a b :
  all_chars p (a +:+ b) = all_chars p a && all_chars p b.
Proof.
  induction a as [|c a IH]; [reflexivity|].
  rewrite append_cons. cbn [all_chars]. rewrite IH, andb_assoc. reflexivity.
Qed.

Lemma all_chars_impl (p q : ascii -> bool) s :
  (forall c, p c = true -> q c = true) ->
  all_chars p s = true -> all_chars q s = true.
Proof.
  intros Hpq. induction s as [|c s IH]; cbn [all_chars]; [reflexivity|].
  rewrite !andb_true_iff. intros [Hc Hs]. auto.
Qed.





Lemma replace_char_absent a b s :
  contains_char a s = false -> replace_char a b s = s.
Proof.
  induction s as [|c s IH]; cbn [contains_char replace_char]; [reflexivity|].
  rewrite orb_false_iff. intros [Hc Hs]. rewrite IH by exact Hs.
  rewrite Ascii.eqb_sym, Hc. reflexivity.
Qed.


(** No character of a normalised header is an uppercase letter or
    anything but a letter, a digit, an underscore or a space. *)
Lemma lower_char_header c :
  header_char (lower_char c) = true ->
  field_char (lower_char c) || Ascii.eqb (lower_char c) " " = true.
Proof.
  destruct c as [[] [] [] [] [] [] [] []]; vm_compute; intros H;
    first [reflexivity | discriminate].
Qed.

Lemma field_char_not_space c : field_char c = true -> is_space c = false.
Proof.
  destruct c as [[] [] [] [] [] [] [] []]; vm_compute; intros H;
    first [reflexivity | discriminate].
Qed.

Lemma header_space_is_space c :
  header_char c = true -> is_space c = true -> c = " "%char.
Proof.
  destruct c as [[] [] [] [] [] [] [] []]; vm_compute; intros H1 H2;
    first [reflexivity | discriminate].
Qed.

Lemma filter_lower_chars s :
  all_chars (fun c => field_char c || Ascii.eqb c " ")
            (filter_chars header_char (lower s)) = true.
Proof.
  induction s as [|c s IH]; cbn [lower filter_chars all_chars]; [reflexivity|].
  destruct (header_char (lower_char c)) eqn:Hh; [|exact IH].
  cbn [all_chars]. rewrite IH, andb_true_r. apply lower_char_header. exact Hh.
Qed.

(** The words of a split: none is empty, none holds whitespace, and each
    is made of characters of the string. *)
Lemma split_words p s :
  all_chars p s = true ->
  Forall (fun w => w <> "" /\ all_chars p w = true
                   /\ all_chars (fun c => negb (is_space c)) w = true)
         (split s).
Proof.
  induction s as [|c s IH]; cbn [split all_chars]; [constructor|].
  rewrite andb_true_iff. intros [Hc Hs]. specialize (IH Hs).
  destruct (is_space c) eqn:Hsp; [exact IH|].
  destruct (starts_word s).
  - destruct (split s) as [|w ws].
    + constructor; [|constructor]. cbn [all_chars].
      rewrite Hc, Hsp. repeat split; discriminate.
    + inversion IH as [|? ? (Hw & Hpw & Hsw) Hws]; subst.
      constructor; [|exact Hws]. cbn [all_chars].
      rewrite Hc, Hpw, Hsp, Hsw. repeat split; discriminate.
  - constructor; [|exact IH]. cbn [all_chars].
    rewrite Hc, Hsp. repeat split; discriminate.
Qed.

Lemma split_no_space s :
  all_chars (fun c => negb (is_space c)) s = true ->
  split s = if str_truthy s then [s] else [].
Proof.
  induction s as [|c s IH]; cbn [split all_chars str_truthy]; [reflexivity|].
  rewrite andb_true_iff, negb_true_iff. intros [Hc Hs]. rewrite Hc.
  rewrite (IH Hs). destruct s as [|c' s]; [reflexivity|].
  cbn [starts_word str_truthy]. cbn [all_chars] in Hs.
  apply andb_true_iff in Hs as [Hc' _]. rewrite Hc'. reflexivity.
Qed.


Lemma all_chars_no_char (p : ascii -> bool) c s :
  p c = false -> all_chars p s = true -> contains_char c s = false.
Proof.
  intros Hc. induction s as [|x s IH]; cbn [all_chars contains_char];
    [reflexivity|].
  rewrite andb_true_iff. intros [Hx Hs]. rewrite (IH Hs), orb_false_r.
  destruct (Ascii.eqb_spec c x); [congruence | reflexivity].
Qed.

Lemma all_chars_and (p q : ascii -> bool) s :
  all_chars p s = true -> all_chars q s = true ->
  all_chars (fun c => p c && q c) s = true.
Proof.
  induction s as [|x s IH]; cbn [all_chars]; [reflexivity|].
  rewrite !andb_true_iff. intros [Hp Hps] [Hq Hqs]. auto.
Qed.

Lemma all_chars_not_char c s :
  contains_char c s = false ->
  all_chars (fun x => negb (Ascii.eqb x c)) s = true.
Proof.
  induction s as [|x s IH]; cbn [all_chars contains_char]; [reflexivity|].
  rewrite orb_false_iff. intros [Hx Hs]. rewrite (IH Hs), andb_true_r.
  rewrite Ascii.eqb_sym, Hx. reflexivity.
Qed.

Lemma lower_char_space c : lower_char c = " "%char -> c = " "%char.
Proof.
  destruct c as [[] [] [] [] [] [] [] []]; vm_compute; intros H;
    first [reflexivity | discriminate].
Qed.

Lemma no_space_filter_lower q s :
  contains_char " " s = false ->
  contains_char " " (filter_chars q (lower s)) = false.
Proof.
  induction s as [|x s IH]; cbn [contains_char lower filter_chars];
    [reflexivity|].
  rewrite orb_false_iff. intros [Hx Hs]. specialize (IH Hs).
  destruct (q (lower_char x)); [|exact IH].
  cbn [contains_char]. rewrite IH, orb_false_r.
  destruct (Ascii.eqb_spec " " (lower_char x)) as [E|]; [|reflexivity].
  symmetry in E. apply lower_char_space in E. subst x. discriminate.
Qed.

Lemma no_space_replaced s : contains_char " " (replace_char " " "_" s) = false.
Proof.
  induction s as [|x s IH]; cbn [contains_char replace_char]; [reflexivity|].
  rewrite IH, orb_false_r. destruct (Ascii.eqb_spec x " "); [reflexivity|].
  destruct (Ascii.eqb_spec " " x); [congruence | reflexivity].
Qed.

(** A string of header characters without a space is made of field
    characters. *)
Lemma field_chars_of s :
  all_chars (fun c => field_char c || Ascii.eqb c " ") s = true ->
  contains_char " " s = false ->
  all_chars field_char s = true.
Proof.
  induction s as [|x s IH]; cbn [all_chars contains_char]; [reflexivity|].
  rewrite andb_true_iff, orb_false_iff. intros [Hx Hs] [Hsp Hns].
  rewrite (IH Hs Hns), andb_true_r.
  rewrite Ascii.eqb_sym, Hsp, orb_false_r in Hx. exact Hx.
Qed.


Lemma field_chars_no_space s :
  all_chars field_char s = true ->
  all_chars (fun c => negb (is_space c)) s = true.
Proof.
  apply all_chars_impl. intros c Hc. rewrite (field_char_not_space c Hc).
  reflexivity.
Qed.

Lemma field_names_of_plain s :
  all_chars (fun c => field_char c || Ascii.eqb c " ") s = true ->
  field_names_of s = split s.
Proof.
  intros Hs. unfold field_names_of. rewrite replace_char_absent; [reflexivity|].
  apply (all_chars_no_char (fun c => field_char c || Ascii.eqb c " ") "," s
           eq_refl Hs).
Qed.







(** X19: whatever the header line and the delimiter, every field name the
    header gives is non-empty and made of lowercase letters, digits and
    underscores only (characters taken as ASCII). *)
Theorem header_field_names_clean delimiter header :
  Forall (fun f => f <> "" /\ all_chars field_char f = true)
         (field_names_of (normalize_header delimiter header)).
Proof.
  assert (Hn : all_chars (fun c => field_char c || Ascii.eqb c " ")
                         (normalize_header delimiter header) = true)
    by apply filter_lower_chars.
  rewrite field_names_of_plain by exact Hn.
  eapply Forall_impl; [apply split_words; exact Hn|].
  intros w (Hne & Hp & Hsp). split; [exact Hne|].
  pose proof (all_chars_and _ _ _ Hp Hsp) as Hboth. revert Hboth.
  apply all_chars_impl. intros c Hc.
  apply andb_true_iff in Hc as [Hc Hs]. apply negb_true_iff in Hs.
  apply orb_true_iff in Hc as [Hc|Hc]; [exact Hc|].
  apply Ascii.eqb_eq in Hc. subst c. discriminate.
Qed.

(** X20: with the space as delimiter the header gives one field at most
    (the spaces are turned into underscores before the delimiter is looked
    for), so a file whose first data row has two values or more yields no
    Recipient and ends in a ValueError or a TypeError. *)
Theorem space_delimited_header header values rest email_field :
  length (field_names_of (normalize_header " " header)) <= 1
  /\ (2 <= length values ->
      fst (csvfile_to_recipients_from " " header (values :: rest) email_field) = []
      /\ (snd (csvfile_to_recipients_from " " header (values :: rest) email_field)
          = Some ValueError
          \/ snd (csvfile_to_recipients_from " " header (values :: rest) email_field)
             = Some TypeError)).
Proof.
  assert (Hlen : length (field_names_of (normalize_header " " header)) <= 1).
  { assert (Hn : all_chars (fun c => field_char c || Ascii.eqb c " ")
                           (normalize_header " " header) = true)
      by apply filter_lower_chars.
    rewrite field_names_of_plain by exact Hn.
    assert (Hns : contains_char " " (normalize_header " " header) = false).
    { unfold normalize_header. apply no_space_filter_lower.
      rewrite (replace_char_absent " " " ") by apply no_space_replaced.
      apply no_space_replaced. }
    rewrite split_no_space.
    - destruct (str_truthy _); simpl; lia.
    - apply field_chars_no_space. apply field_chars_of; assumption. }
  split; [exact Hlen|]. intros Hvalues.
  unfold csvfile_to_recipients_from, csvfile_to_recipients.
  destruct (namedtuple _) as [e|fields] eqn:Hnt.
  - unfold namedtuple in Hnt. destruct (_ && _ && _); [discriminate|].
    injection Hnt as <-. auto.
  - apply namedtuple_inr in Hnt as [-> _].
    assert (Hmk : Row_make (field_names_of (normalize_header " " header)) values
                  = inl TypeError).
    { unfold Row_make.
      destruct (Nat.eqb_spec (length values)
                  (length (field_names_of (normalize_header " " header))));
        [lia | reflexivity]. }
    destruct email_field as [field|]; simpl; rewrite Hmk; auto.
Qed.

Lemma space_delimited_header_witness :
  fst (csvfile_to_recipients_from " " "email first_name"
         (["a@x.io"; "ann"] :: []) None) = []
  /\ (snd (csvfile_to_recipients_from " " "email first_name"
             (["a@x.io"; "ann"] :: []) None) = Some ValueError
      \/ snd (csvfile_to_recipients_from " " "email first_name"
                (["a@x.io"; "ann"] :: []) None) = Some TypeError).
Proof.
  apply (proj2 (space_delimited_header "email first_name" ["a@x.io"; "ann"]
                  [] None)).
  simpl. lia.
Defined.



Example header_fields_example :
  field_names_of
    (normalize_header ","
       (join_columns "," ["E-Mail"; "First Name"; "#"; "last_name"]
        +:+ String "010" ""))
  = ["email"; "first_name"; "last_name"].
Proof. reflexivity. Qed.



(** ** send over a generator *)

Section SendGenFacts.
Variable Response : Type.
Variable transport : list message -> message -> nat + Response.

Lemma zl_pass_gen_None {A} (its : list arg) : forall na (p : list A),
  zl_pass_gen its na p None
  = match zl_pass its na p with
    | Some (values, st) => PValues values st
    | None => PReturned
    end.
Proof.
  induction its as [|[|] its IH]; intros na p; cbn [zl_pass_gen zl_pass].
  - reflexivity.
  - destruct p as [|x p].
    + cbv zeta. destruct (na - 1 =? 0)%Z; [reflexivity|].
      rewrite IH. destruct (zl_pass its (na - 1) []) as [[values [its' n q]]|];
        reflexivity.
    + rewrite IH. destruct (zl_pass its na p) as [[values [its' n q]]|];
        reflexivity.
  - rewrite IH. destruct (zl_pass its na p) as [[values [its' n q]]|];
      reflexivity.
Qed.

Lemma zl_pass_gen_repeat {A} m na (p : list A) ending :
  zl_pass_gen (replicate m Repeat) na p ending
  = PValues (replicate m None) (ZL (replicate m Repeat) na p).
Proof. induction m as [|m IH]; simpl; [|rewrite IH]; reflexivity. Qed.

Lemma zl_pass_gen_full {A} k m na (p : list A) ending :
  k <= length p ->
  zl_pass_gen (replicate k Shared ++ replicate m Repeat) na p ending
  = PValues (map Some (take k p) ++ replicate m None)
            (ZL (replicate k Shared ++ replicate m Repeat) na (drop k p)).
Proof.
  revert p. induction k as [|k IH]; intros p Hk; simpl.
  - apply zl_pass_gen_repeat.
  - destruct p as [|x p]; simpl in Hk; [lia|].
    rewrite IH by lia. reflexivity.
Qed.

Lemma zl_pass_gen_raise {A} (p : list A) : forall k m na e,
  length p < k ->
  zl_pass_gen (replicate k Shared ++ replicate m Repeat) na p (Some e)
  = PRaised e.
Proof.
  induction p as [|x p IH]; intros k m na e Hk;
    (destruct k as [|k]; simpl in Hk; [lia|]); simpl.
  - reflexivity.
  - rewrite IH by lia. reflexivity.
Qed.

Lemma send_loop_cons_bind dry_run batch rest result s :
  send_loop Response transport dry_run (batch :: rest) result s
  = bind (send_loop Response transport dry_run [batch] result)
         (fun result' => send_loop Response transport dry_run rest result') s.
Proof.
  destruct (reals batch) as [|r rs] eqn:Hr.
  - unfold bind. rewrite !send_loop_sentinels by exact Hr. reflexivity.
  - assert (Hne : reals batch <> []) by congruence.
    unfold bind. destruct dry_run.
    + rewrite !send_loop_dry by exact Hne. reflexivity.
    + rewrite !send_loop_wet by exact Hne. cbv zeta.
      destruct (transport _ _); reflexivity.
Qed.

Lemma send_gen_loop_S fuel dry_run ending st result :
  send_gen_loop Response transport (S fuel) dry_run ending st result
  = match zl_pass_gen (iterators st) (num_active st) (pending st) ending with
    | PReturned => ret result
    | PRaised e => raise e
    | PValues batch st' =>
        bind (send_loop Response transport dry_run [batch] result)
             (fun result' =>
                send_gen_loop Response transport fuel dry_run ending st' result')
    end.
Proof. reflexivity. Qed.

Lemma send_gen_loop_None dry_run fuel : forall st batches,
  zl_loop fuel st = Some batches ->
  forall result s,
    send_gen_loop Response transport fuel dry_run None st result s
    = send_loop Response transport dry_run batches result s.
Proof.
  induction fuel as [|fuel IH]; intros st batches Hloop result s;
    [discriminate|].
  rewrite zl_loop_S in Hloop. rewrite send_gen_loop_S, zl_pass_gen_None.
  destruct (zl_pass (iterators st) (num_active st) (pending st))
    as [[values st']|].
  - destruct (zl_loop fuel st') as [rest|] eqn:Hrest; [|discriminate].
    injection Hloop as <-. rewrite send_loop_cons_bind. unfold bind.
    destruct (send_loop Response transport dry_run [values] result s)
      as [[e|result'] s1]; [reflexivity|].
    apply (IH st' rest Hrest).
  - injection Hloop as <-. reflexivity.
Qed.

Lemma send_gen_loop_raise dry_run e n : 1 <= n ->
  forall k full partial fuel result s,
    length full = k * n -> length partial < n -> k < fuel ->
    send_gen_loop Response transport fuel dry_run (Some e)
      (ZL (replicate n Shared) (Z.of_nat n) (full ++ partial)) result s
    = (match fst (send_loop Response transport dry_run
                    (chunks (length full) n full) result s) with
       | inl err => inl err
       | inr _ => inl e
       end,
       snd (send_loop Response transport dry_run
              (chunks (length full) n full) result s)).
Proof.
  intros Hn. induction k as [|k IH];
    intros full partial fuel result s Hfull Hpartial Hfuel;
    (destruct fuel as [|fuel]; [lia|]);
    rewrite send_gen_loop_S; cbn [iterators num_active pending].
  - destruct full; [|discriminate]. rewrite app_nil_l.
    pose proof (zl_pass_gen_raise partial n 0 (Z.of_nat n) e Hpartial) as Hp.
    simpl in Hp. rewrite app_nil_r in Hp. rewrite Hp. reflexivity.
  - assert (Hlen : n <= length full) by lia.
    pose proof (zl_pass_gen_full n 0 (Z.of_nat n) (full ++ partial) (Some e))
      as Hp.
    simpl in Hp. rewrite !app_nil_r in Hp. rewrite Hp
      by (rewrite length_app; lia). clear Hp.
    rewrite take_app_le, drop_app_le by exact Hlen.
    destruct full as [|x full']; [simpl in Hlen; lia|].
    change (chunks (length (x :: full')) n (x :: full'))
      with (chunks (S (length full')) n (x :: full')).
    rewrite chunks_cons.
    replace (n - length (x :: full')) with 0 by lia.
    simpl replicate. rewrite app_nil_r.
    assert (Hd : length (drop n (x :: full')) = k * n)
      by (rewrite length_drop; lia).
    rewrite (chunks_fuel n (length full') (length (drop n (x :: full'))))
      by (simpl in Hfull; lia).
    rewrite send_loop_cons_bind. unfold bind.
    destruct (send_loop Response transport dry_run
                [map Some (take n (x :: full'))] result s)
      as [[err|result'] s1]; [reflexivity|].
    apply IH; [exact Hd | exact Hpartial | lia].
Qed.
End SendGenFacts.

(** X23: on a generator that ends normally, the loop of send as it runs
    (one batch pulled, composed and handed over before the next is pulled)
    comes to the same result, state and transport calls as send on the
    list of the recipients it yields. *)
Theorem send_gen_normal_end (Response : Type) transport
    (recipients : list Recipient) (n : Z) (dry_run : bool) (s : state) :
  send_gen Response transport (recipients, None) n dry_run s
  = send Response transport recipients n dry_run s.
Proof.
  destruct (grouper_real_batches recipients n) as (batches & Hg & _).
  unfold send. rewrite Hg. unfold grouper, zip_longest in Hg.
  unfold send_gen. cbv zeta. cbn [fst snd].
  destruct (Z.of_nat (length (replicate (Z.to_nat n) Shared)) =? 0)%Z.
  - injection Hg as <-. reflexivity.
  - apply send_gen_loop_None. exact Hg.
Qed.

(** X24: when the generator raises after it has yielded k full batches
    and fewer than a batch more, send handles the k full batches as it
    would handle them alone and then fails with the generator's exception
    (or earlier, with the transport's): what was handed over stays handed
    over, and the recipients of the unfinished batch are never sent to. *)
Theorem send_gen_raising (Response : Type) transport
    (full partial : list Recipient) (k : nat) (e : exn) (n : Z)
    (dry_run : bool) (s : state) :
  (0 < n)%Z ->
  length full = k * Z.to_nat n ->
  length partial < Z.to_nat n ->
  send_gen Response transport (full ++ partial, Some e) n dry_run s
  = (match fst (send Response transport full n dry_run s) with
     | inl err => inl err
     | inr _ => inl e
     end,
     snd (send Response transport full n dry_run s)).
Proof.
  intros Hn Hfull Hpartial. assert (Hk : 1 <= Z.to_nat n) by lia.
  unfold send. rewrite grouper_chunks by exact Hn.
  unfold send_gen. cbv zeta. cbn [fst snd]. rewrite length_replicate.
  destruct (Z.eqb_spec (Z.of_nat (Z.to_nat n)) 0) as [E|_]; [lia|].
  apply (send_gen_loop_raise Response transport dry_run e (Z.to_nat n) Hk k);
    [exact Hfull | exact Hpartial |].
  rewrite length_app. nia.
Qed.

Lemma send_gen_raising_witness :
  send_gen nat (fun log _ => inr (length log))
    ([Recipient_init "a@x.io" []; Recipient_init "b@x.io" []]
       ++ [Recipient_init "c@x.io" []], Some TypeError) 2 false
    (State (mkMail (Some "t") [] [] "s" "e" "n") [])
  = (match fst (send nat (fun log _ => inr (length log))
                  [Recipient_init "a@x.io" []; Recipient_init "b@x.io" []] 2 false
                  (State (mkMail (Some "t") [] [] "s" "e" "n") [])) with
     | inl err => inl err
     | inr _ => inl TypeError
     end,
     snd (send nat (fun log _ => inr (length log))
            [Recipient_init "a@x.io" []; Recipient_init "b@x.io" []] 2 false
            (State (mkMail (Some "t") [] [] "s" "e" "n") []))).
Proof.
  apply (send_gen_raising nat (fun log _ => inr (length log))
           [Recipient_init "a@x.io" []; Recipient_init "b@x.io" []]
           [Recipient_init "c@x.io" []] 1 TypeError 2 false
           (State (mkMail (Some "t") [] [] "s" "e" "n") [])).
  - lia.
  - reflexivity.
  - simpl. lia.
Defined.

(** X25: when reading the file fails before fifty Recipients have been
    yielded (a rejected header, no email field found, a malformed row among
    the first fifty), the send of main hands nothing to the transport and
    fails with the reader's exception, leaving the state as it was. *)
Theorem send_csvfile_early_failure (Response : Type) transport
    field_names rows email_field (dry_run : bool) (s : state) rs e :
  csvfile_to_recipients field_names rows email_field = (rs, Some e) ->
  length rs < 50 ->
  send_csvfile Response transport field_names rows email_field dry_run s
  = (inl e, s).
Proof.
  intros Hcsv Hlen. unfold send_csvfile. rewrite Hcsv.
  unfold send_gen. cbv zeta. cbn [fst snd]. rewrite length_replicate.
  change (Z.of_nat (Z.to_nat 50) =? 0)%Z with false. cbv iota.
  pose proof (send_gen_loop_raise Response transport dry_run e (Z.to_nat 50)
                ltac:(lia) 0 [] rs (S (length rs)) [] s eq_refl) as H.
  simpl app in H. rewrite H; [reflexivity | | lia].
  change (Z.to_nat 50) with 50. exact Hlen.
Qed.

Lemma send_csvfile_early_failure_witness :
  send_csvfile nat (fun log _ => inr (length log)) ["name"; "phone"]
    [["ann"; "555"]] None false
    (State (mkMail (Some "t") [] [] "s" "e" "n") [])
  = (inl CouldNotGuessEmailField,
     State (mkMail (Some "t") [] [] "s" "e" "n") []).
Proof.
  apply (send_csvfile_early_failure nat (fun log _ => inr (length log))
           ["name"; "phone"] [["ann"; "555"]] None false
           (State (mkMail (Some "t") [] [] "s" "e" "n") [])
           [] CouldNotGuessEmailField).
  - reflexivity.
  - simpl. lia.
Defined.

(** ** The display name, and the invariants from construction on *)

Lemma lower_char_idempotent c : lower_char (lower_char c) = lower_char c.
Proof. destruct c as [[] [] [] [] [] [] [] []]; reflexivity. Qed.

Lemma is_cased_upper_char c : is_cased (upper_char c) = is_cased c.
Proof. destruct c as [[] [] [] [] [] [] [] []]; reflexivity. Qed.

Lemma is_cased_lower_char c : is_cased (lower_char c) = is_cased c.
Proof. destruct c as [[] [] [] [] [] [] [] []]; reflexivity. Qed.

Lemma title_from_idempotent s : forall b,
  title_from b (title_from b s) = title_from b s.
Proof.
  induction s as [|c s IH]; intros b; cbn [title_from]; [reflexivity|].
  destruct b.
  - rewrite lower_char_idempotent, is_cased_lower_char, IH. reflexivity.
  - rewrite upper_char_idempotent, is_cased_upper_char, IH. reflexivity.
Qed.

Lemma is_ascii_upper_char c :
  is_ascii_char c = true -> is_ascii_char (upper_char c) = true.
Proof.
  destruct c as [[] [] [] [] [] [] [] []]; vm_compute; intros H;
    first [reflexivity | discriminate].
Qed.

Lemma is_ascii_lower_char c :
  is_ascii_char c = true -> is_ascii_char (lower_char c) = true.
Proof.
  destruct c as [[] [] [] [] [] [] [] []]; vm_compute; intros H;
    first [reflexivity | discriminate].
Qed.

Lemma title_from_ascii s : forall b,
  all_chars is_ascii_char s = true ->
  all_chars is_ascii_char (title_from b s) = true.
Proof.
  induction s as [|c s IH]; intros b; cbn [title_from all_chars];
    [reflexivity|].
  rewrite !andb_true_iff. intros [Hc Hs]. split; [|apply IH; exact Hs].
  destruct b; [apply is_ascii_lower_char | apply is_ascii_upper_char]; exact Hc.
Qed.

Lemma Dict_get_In {V} k (v : V) d : Dict.get k d = Some v -> In (k, v) d.
Proof.
  induction d as [|[k' v'] d IH]; simpl; [discriminate|].
  destruct (String.eqb_spec k k') as [->|Hne].
  - intros H. injection H as ->. left. reflexivity.
  - intros H. right. apply IH. exact H.
Qed.

Lemma kwargs_value_ascii kwargs k :
  Forall (fun kv => all_chars is_ascii_char (snd kv) = true) kwargs ->
  all_chars is_ascii_char (default "" (Dict.get k kwargs)) = true.
Proof.
  intros Hall. destruct (Dict.get k kwargs) as [v|] eqn:Hget; [|reflexivity].
  apply Dict_get_In in Hget. rewrite List.Forall_forall in Hall.
  apply (Hall (k, v) Hget).
Qed.

(** X26: when the values of the keyword arguments are ASCII strings, the
    name of the Recipient is an ASCII string in title case: title-casing
    it again changes nothing. *)
Theorem Recipient_name_titlecased email kwargs :
  Forall (fun kv => all_chars is_ascii_char (snd kv) = true) kwargs ->
  all_chars is_ascii_char (name (Recipient_init email kwargs)) = true
  /\ title (name (Recipient_init email kwargs))
     = name (Recipient_init email kwargs).
Proof.
  intros Hall. cbn [Recipient_init name].
  split; [|apply title_from_idempotent].
  apply title_from_ascii.
  destruct (Dict.get "name" kwargs) as [n|] eqn:Hn.
  - pose proof (kwargs_value_ascii kwargs "name" Hall) as H.
    rewrite Hn in H. exact H.
  - cbn [default]. unfold Recipient_name.
    pose proof (kwargs_value_ascii kwargs "first_name" Hall) as Hf.
    pose proof (kwargs_value_ascii kwargs "last_name" Hall) as Hl.
    destruct (opt_truthy (Dict.get "first_name" kwargs)
              && opt_truthy (Dict.get "last_name" kwargs)).
    + rewrite !all_chars_append, Hf, Hl. reflexivity.
    + destruct (opt_truthy (Dict.get "first_name" kwargs));
        [exact Hf | reflexivity].
Qed.

Lemma Recipient_name_titlecased_witness :
  all_chars is_ascii_char
    (name (Recipient_init "a@x.io"
             [("first_name", "jANE"); ("last_name", "o'neil")])) = true
  /\ title (name (Recipient_init "a@x.io"
                    [("first_name", "jANE"); ("last_name", "o'neil")]))
     = name (Recipient_init "a@x.io"
               [("first_name", "jANE"); ("last_name", "o'neil")]).
Proof.
  apply (Recipient_name_titlecased "a@x.io"
           [("first_name", "jANE"); ("last_name", "o'neil")]).
  repeat constructor.
Defined.

(** X27: a composer satisfies both invariants (uppercased variable names,
    images map a dictionary named by its keys) after clear and after
    Mail.__init__, whether the constructor succeeds or fails on a missing
    template, and send keeps them. *)
Theorem invariants_from_construction (Response : Type) transport
    subject from_name from_email template recipients n dry_run (s : state) :
  (names_uppercase (self (snd (clear s))) /\ images_wf (self (snd (clear s))))
  /\ (names_uppercase
        (self (snd (Mail_init subject from_name from_email template s)))
      /\ images_wf
           (self (snd (Mail_init subject from_name from_email template s))))
  /\ (names_uppercase (self s) /\ images_wf (self s) ->
      names_uppercase
        (self (snd (send Response transport recipients n dry_run s)))
      /\ images_wf
           (self (snd (send Response transport recipients n dry_run s)))).
Proof.
  assert (Hempty : forall t sub fe fn,
            names_uppercase (mkMail t [] [] sub fe fn)
            /\ images_wf (mkMail t [] [] sub fe fn)).
  { intros. split; [constructor | split; constructor]. }
  split; [apply Hempty|]. split.
  - destruct template as [t|]; apply Hempty.
  - intros Hinv.
    assert (Hself : self (snd (send Response transport recipients n dry_run s))
                    = self s).
    { unfold send.
      destruct (grouper_real_batches recipients n) as (batches & -> & _).
      apply send_loop_frame. }
    rewrite Hself. exact Hinv.
Qed.

Lemma invariants_from_construction_witness :
  names_uppercase
    (self (snd (send nat (fun log _ => inr (length log))
                  [Recipient_init "a@x.io" []] 50 false
                  (State (mkMail (Some "t") [] [MergeVar "TEST" "v"] "s" "e" "n") []))))
  /\ images_wf
       (self (snd (send nat (fun log _ => inr (length log))
                     [Recipient_init "a@x.io" []] 50 false
                     (State (mkMail (Some "t") [] [MergeVar "TEST" "v"] "s" "e" "n") [])))).
Proof.
  apply (proj2 (proj2 (invariants_from_construction nat
                         (fun log _ => inr (length log))
                         "s" "n" "e" (Some "t") [Recipient_init "a@x.io" []] 50 false
                         (State (mkMail (Some "t") [] [MergeVar "TEST" "v"] "s" "e" "n") [])))).
  split; [repeat constructor | split; constructor].
Defined.
